(** * Baguio e-waste map: state model and cross-tab synchronisation

    A shallow embedding of the state core of [src/index.tsx]: the data
    types, the reducer [appReducer], and the three effects of the [App]
    component that load, save and synchronise the state through
    [window.localStorage]. The pages, the map and the login are left out:
    they read the state and dispatch actions, nothing more. *)

From Stdlib Require Import PrimFloat.
From stdpp Require Import gmap strings list fin_maps pretty.

(** ** Run-time values

    TypeScript's types are erased: what [JSON.parse] returns is handed to the
    reducer unchecked. The reducer's state is therefore modelled as a
    JavaScript value; the declared interfaces are records that embed into it.
    A number is an IEEE-754 double, an object a finite map from property
    names to values. *)

Inductive jsval : Type :=
| JNull
| JBool (b : bool)
| JNum (x : float)
| JStr (s : string)
| JArr (elems : list jsval)
| JObj (props : gmap string jsval).

(** ** Exceptions *)

Inductive exn : Set :=
| TypeError      (* property read on null, call of a non-function, ... *)
| SyntaxError    (* JSON.parse on a malformed text *)
| DOMException.  (* localStorage refused the access or the write *)

Inductive completion (A : Type) : Type :=
| Normal (a : A)
| Throw (e : exn).
Arguments Normal {A} a.
Arguments Throw {A} e.

#[global] Instance completion_ret : MRet completion := λ A a, Normal a.
#[global] Instance completion_bind : MBind completion := λ A B f m,
  match m with
  | Normal a => f a
  | Throw e => Throw e
  end.

(** ** DATA TYPES (index.tsx, 5-25) *)

Record Location : Type := {
  id : string;
  lat : float;
  lng : float;
  address : string;
  schedule : string;
  label : string;
}.

Record ContactInfo : Type := {
  email : string;
  phone : string;
  office : string;
}.

Record AppState : Type := {
  locations : list Location;
  announcements : string;
  contactInfo : ContactInfo;
}.

(** The object a well-typed record is at run time. *)

Definition of_Location (l : Location) : jsval :=
  JObj {[ "id" := JStr (id l);
          "lat" := JNum (lat l);
          "lng" := JNum (lng l);
          "address" := JStr (address l);
          "schedule" := JStr (schedule l);
          "label" := JStr (label l) ]}.

Definition of_ContactInfo (c : ContactInfo) : jsval :=
  JObj {[ "email" := JStr (email c);
          "phone" := JStr (phone c);
          "office" := JStr (office c) ]}.

Definition of_AppState (s : AppState) : jsval :=
  JObj {[ "locations" := JArr (of_Location <$> locations s);
          "announcements" := JStr (announcements s);
          "contactInfo" := of_ContactInfo (contactInfo s) ]}.

(** ** REDUCER ACTIONS (index.tsx, 27-34)

    The payload of [SET_STATE] is declared [AppState] but is always the
    unchecked result of [JSON.parse]; the other payloads are object literals
    built by the admin page with exactly the declared fields. *)

Inductive AppAction : Type :=
| SET_STATE (payload : jsval)
| ADD_LOCATION (payload : Location)
| EDIT_LOCATION (payload : Location)
| DELETE_LOCATION (payload : string)
| SET_ANNOUNCEMENTS (payload : string)
| SET_CONTACT_INFO (payload : ContactInfo).

(** ** DEFAULT DATA (index.tsx, 37-46) *)

Definition initialAppState : AppState := {|
  locations := [];
  announcements := "No announcements have been posted yet.";
  contactInfo := {|
    email := "contact@baguio-ewaste.gov.ph";
    phone := "(074) 123-4567";
    office := "City Environment and Parks Management Office (CEPMO), Baguio City Hall";
  |};
|}.

(** ** The JavaScript operations the reducer uses *)

(** [o.k] for a property name [k] that no built-in prototype defines (the
    reducer reads [locations] and [id] only): [None] is [undefined]. *)
Definition get (o : jsval) (k : string) : completion (option jsval) :=
  match o with
  | JNull => Throw TypeError
  | JObj props => Normal (props !! k)
  | _ => Normal None
  end.

Definition chars (s : string) : list jsval :=
  (λ c, JStr (String c EmptyString)) <$> String.list_ascii_of_string s.

Definition indexed (l : list jsval) : gmap string jsval :=
  list_to_map (imap (λ i v, (pretty i, v)) l).

(** [{...v}]: the own enumerable properties of [v]. Spreading a primitive
    that has none, or null, copies nothing. *)
Definition spread (v : jsval) : gmap string jsval :=
  match v with
  | JObj props => props
  | JArr elems => indexed elems
  | JStr s => indexed (chars s)
  | _ => ∅
  end.

(** [[...v]]: only arrays and strings are iterable. *)
Definition iterate (v : option jsval) : completion (list jsval) :=
  match v with
  | Some (JArr elems) => Normal elems
  | Some (JStr s) => Normal (chars s)
  | _ => Throw TypeError
  end.

(** The receiver of [.map] and [.filter]: only an array has these methods. *)
Definition array (v : option jsval) : completion (list jsval) :=
  match v with
  | Some (JArr elems) => Normal elems
  | _ => Throw TypeError
  end.

(** [v === s] for a string [s]. *)
Definition is_string (v : option jsval) (s : string) : bool :=
  match v with
  | Some (JStr t) => bool_decide (t = s)
  | _ => false
  end.

(** [Array.prototype.map] and [Array.prototype.filter] with a callback that
    may throw. *)
Fixpoint array_map (f : jsval → completion jsval) (l : list jsval)
  : completion (list jsval) :=
  match l with
  | [] => Normal []
  | x :: l' => y ← f x; ys ← array_map f l'; Normal (y :: ys)
  end.

Fixpoint array_filter (f : jsval → completion bool) (l : list jsval)
  : completion (list jsval) :=
  match l with
  | [] => Normal []
  | x :: l' => b ← f x; ys ← array_filter f l';
               Normal (if b : bool then x :: ys else ys)
  end.

(** ** STATE MANAGEMENT REDUCER (index.tsx, 64-92)

    One case per action, in the order of the source. The [default] case of
    the source is unreachable: [AppAction] has no other constructor. *)

Definition appReducer (state : jsval) (action : AppAction) : completion jsval :=
  match action with
  | SET_STATE payload =>
      Normal payload
  | ADD_LOCATION payload =>
      locs ← get state "locations" ≫= iterate;
      Normal (JObj (<["locations" := JArr (locs ++ [of_Location payload])]> (spread state)))
  | EDIT_LOCATION payload =>
      locs ← get state "locations" ≫= array;
      locs' ← array_map (λ loc,
                 i ← get loc "id";
                 Normal (if is_string i (id payload) then of_Location payload else loc))
               locs;
      Normal (JObj (<["locations" := JArr locs']> (spread state)))
  | DELETE_LOCATION payload =>
      locs ← get state "locations" ≫= array;
      newLocations ← array_filter (λ loc,
                 i ← get loc "id";
                 Normal (negb (is_string i payload)))
               locs;
      Normal (JObj (<["locations" := JArr newLocations]> (spread state)))
  | SET_ANNOUNCEMENTS payload =>
      Normal (JObj (<["announcements" := JStr payload]> (spread state)))
  | SET_CONTACT_INFO payload =>
      Normal (JObj (<["contactInfo" := of_ContactInfo payload]> (spread state)))
  end.

(** ** The App component (index.tsx, 631-679)

    The component keeps the reducer's state, reads and writes one key of
    [window.localStorage], and reports caught exceptions on the console.
    [JSON.parse] and [JSON.stringify] are built-ins of the host: they are
    parameters of the model. Whether the browser accepts a storage access is
    decided outside the program too: every access takes that decision as an
    argument. *)

Definition STORAGE_KEY : string := "e-waste-data".

Inductive call : Type :=
| getItem (key : string)
| setItem (key value : string)
| console_error (error : exn).

Record World : Type := {
  state : jsval;                        (* the cell of useReducer *)
  localStorage : gmap string string;    (* the storage area of the origin *)
  trace : list call;                    (* calls made so far, oldest first *)
}.

Definition log (c : call) (w : World) : World :=
  {| state := state w; localStorage := localStorage w; trace := trace w ++ [c] |}.

Definition set_state (st : jsval) (w : World) : World :=
  {| state := st; localStorage := localStorage w; trace := trace w |}.

Definition set_localStorage (items : gmap string string) (w : World) : World :=
  {| state := state w; localStorage := items; trace := trace w |}.

(** The fields of a [StorageEvent] the handler reads; [None] is null. *)
Record StorageEvent : Type := {
  key : option string;
  newValue : option string;
}.

(** A string or null in a condition: null and the empty string are falsy;
    a truthy value is a string that is not empty. *)
Definition truthy (v : option string) : option string :=
  match v with
  | Some (String c s) => Some (String c s)
  | _ => None
  end.

Section App.

Variable JSON_parse : string → completion jsval.
Variable JSON_stringify : jsval → string.

(** Effect to load state from localStorage on initial mount (640-650).
    [dispatch] only queues the action: it is returned to the caller. *)
Definition load_effect (ok : bool) (w : World) : World * option AppAction :=
  let w := log (getItem STORAGE_KEY) w in
  let try :=
    storedItem ← (if ok then Normal (localStorage w !! STORAGE_KEY)
                  else Throw DOMException);
    match truthy storedItem with
    | Some text =>
        savedState ← JSON_parse text;
        Normal (Some (SET_STATE savedState))
    | None => Normal None
    end in
  match try with
  | Normal queued => (w, queued)
  | Throw error => (log (console_error error) w, None)
  end.

(** Effect to save state to localStorage whenever it changes (652-659). *)
Definition save_effect (ok : bool) (w : World) : World :=
  let value := JSON_stringify (state w) in
  let w := log (setItem STORAGE_KEY value) w in
  if ok then set_localStorage (<[STORAGE_KEY := value]> (localStorage w)) w
  else log (console_error DOMException) w.

(** The listener of the effect that synchronises tabs (662-672). *)
Definition handleStorageChange (event : StorageEvent) (w : World)
  : World * option AppAction :=
  if bool_decide (key event = Some STORAGE_KEY) then
    match truthy (newValue event) with
    | Some text =>
        match JSON_parse text with
        | Normal savedState => (w, Some (SET_STATE savedState))
        | Throw error => (log (console_error error) w, None)
        end
    | None => (w, None)
    end
  else (w, None).

(** A queued action is reduced in the next render; no handler of the
    program dispatches twice, so one render follows each dispatch. Every
    case of the reducer builds a fresh object and a [SET_STATE] payload is
    freshly parsed, so the state always changes and the save effect runs
    once after the render. An exception of the reducer is caught by nobody.
    What the pages draw from the state is outside the model. *)
Definition dispatch (action : AppAction) (ok : bool) (w : World) : completion World :=
  state' ← appReducer (state w) action;
  Normal (save_effect ok (set_state state' w)).

Definition flush (queued : option AppAction) (ok : bool) (w : World) : completion World :=
  match queued with
  | Some action => dispatch action ok w
  | None => Normal w
  end.

(** Mounting: the first render has the initial state; its effects run in
    the order they are declared, so the save effect still sees the initial
    state; the action the load effect queued is reduced afterwards. *)
Definition mount (items : gmap string string) (ok_get ok_set ok_set' : bool)
  : completion World :=
  let w := {| state := of_AppState initialAppState;
              localStorage := items;
              trace := [] |} in
  let '(w, queued) := load_effect ok_get w in
  let w := save_effect ok_set w in
  flush queued ok_set' w.

(** Another tab changed the storage area; the browser delivers the event. *)
Definition changed (event : StorageEvent) (items : gmap string string)
  : gmap string string :=
  match key event, newValue event with
  | Some k, Some v => <[k := v]> items
  | Some k, None => delete k items
  | None, _ => ∅
  end.

Definition storage_event (event : StorageEvent) (ok : bool) (w : World)
  : completion World :=
  let w := set_localStorage (changed event (localStorage w)) w in
  let '(w, queued) := handleStorageChange event w in
  flush queued ok w.

End App.

(** ** Well-typed states *)

Definition ids (s : AppState) : list string := id <$> locations s.

Definition with_locations (s : AppState) (locs : list Location) : AppState :=
  {| locations := locs;
     announcements := announcements s;
     contactInfo := contactInfo s |}.

Definition replace_id (new : Location) (l : Location) : Location :=
  if bool_decide (id l = id new) then new else l.

(** The ids of the locations of a state, read the way the reducer reads
    them: [None] where an entry has no [id]. *)
Definition location_ids (st : jsval) : list (option jsval) :=
  match st with
  | JObj props =>
      match props !! "locations" with
      | Some (JArr elems) =>
          (λ loc, match loc with JObj fields => fields !! "id" | _ => None end)
            <$> elems
      | _ => []
      end
  | _ => []
  end.

Definition unique_ids (st : jsval) : Prop := NoDup (location_ids st).

(** The preconditions of the intents (spec, 4.1): a replacement state is
    well formed and its ids are pairwise distinct; an added location has an
    id no location has yet. The other intents have none. *)
Definition respects (st : jsval) (action : AppAction) : Prop :=
  match action with
  | SET_STATE payload => ∃ s, payload = of_AppState s ∧ unique_ids payload
  | ADD_LOCATION loc => Some (JStr (id loc)) ∉ location_ids st
  | _ => True
  end.

Inductive reachable : jsval → Prop :=
| reachable_initial :
    reachable (of_AppState initialAppState)
| reachable_step st action st' :
    reachable st →
    respects st action →
    appReducer st action = Normal st' →
    reachable st'.

(** ** Sample data and a sample host for closed examples *)

Definition city_hall : Location :=
  {| id := "a"; lat := 16.4; lng := 120.6;
     address := "City Hall"; schedule := "Mon-Fri"; label := "CH" |}.

Definition city_hall_annex : Location :=
  {| id := "a"; lat := 16.5; lng := 120.7;
     address := "City Hall Annex"; schedule := "Tue,Thu"; label := "CHA" |}.

Definition market : Location :=
  {| id := "b"; lat := 16.41; lng := 120.59;
     address := "Public Market"; schedule := "Sat"; label := "PM" |}.

Definition drive_state : AppState :=
  {| locations := [];
     announcements := "Collection drive this weekend";
     contactInfo := {| email := "e"; phone := "p"; office := "o" |} |}.

Definition drive : AppAction := SET_ANNOUNCEMENTS "Collection drive this weekend".

Definition double_quote : Ascii.ascii := Ascii.ascii_of_nat 34.

Definition quoted (s : string) : string :=
  String double_quote (s ++ String double_quote EmptyString).

(** The JSON text of an object that has [locations] and nothing else, and
    the JSON text of [drive_state]. *)
Definition only_locations_text : string :=
  "{" ++ quoted "locations" ++ ":[]}".

Definition drive_text : string :=
  "{" ++ quoted "locations" ++ ":[],"
      ++ quoted "announcements" ++ ":" ++ quoted "Collection drive this weekend" ++ ","
      ++ quoted "contactInfo" ++ ":{"
         ++ quoted "email" ++ ":" ++ quoted "e" ++ ","
         ++ quoted "phone" ++ ":" ++ quoted "p" ++ ","
         ++ quoted "office" ++ ":" ++ quoted "o" ++ "}}".

(** [sample_parse] is [JSON.parse] on the texts the examples store: the
    four JSON texts of [sample_texts], and texts that are not JSON at all
    (every text outside the table is taken to be one). *)
Definition sample_texts : gmap string jsval :=
  {[ "{}" := JObj ∅;
     "null" := JNull;
     only_locations_text := JObj {[ "locations" := JArr [] ]};
     drive_text := of_AppState drive_state ]}.

Definition sample_parse (text : string) : completion jsval :=
  match sample_texts !! text with
  | Some v => Normal v
  | None => Throw SyntaxError
  end.

(** [sample_stringify] stands in for [JSON.stringify]: no example reads
    back what it writes. *)
Definition sample_stringify (v : jsval) : string := "{}".

Definition fresh_world : World :=
  {| state := of_AppState initialAppState; localStorage := ∅; trace := [] |}.

Definition event_drive : StorageEvent :=
  {| key := Some STORAGE_KEY; newValue := Some drive_text |}.

Definition event_malformed : StorageEvent :=
  {| key := Some STORAGE_KEY; newValue := Some "{oops" |}.

Definition event_removed : StorageEvent :=
  {| key := Some STORAGE_KEY; newValue := None |}.

(** ** More sample data *)

(** A world whose state differs from [drive_state] in the announcements
    only, and a stand-in for [JSON.stringify] that is [JSON.stringify] on
    [drive_state]. *)
Definition before_drive : AppState :=
  {| locations := [];
     announcements := "Nothing yet";
     contactInfo := contactInfo drive_state |}.

Definition before_drive_world : World :=
  {| state := of_AppState before_drive; localStorage := ∅; trace := [] |}.

Definition drive_stringify (v : jsval) : string :=
  match get v "announcements" with
  | Normal (Some (JStr text)) =>
      if bool_decide (text = "Collection drive this weekend") then drive_text else "{}"
  | _ => "{}"
  end.

(** The property an action assigns; [SET_STATE] replaces the whole state. *)
Definition written (action : AppAction) : option string :=
  match action with
  | SET_STATE _ => None
  | ADD_LOCATION _ | EDIT_LOCATION _ | DELETE_LOCATION _ => Some "locations"
  | SET_ANNOUNCEMENTS _ => Some "announcements"
  | SET_CONTACT_INFO _ => Some "contactInfo"
  end.

(** A stored state with a field the program does not know, and with entries
    the admin page would never build: one whose id is a number, one without
    an id. *)
Definition odd_entries : list jsval :=
  [ JObj {[ "id" := JNum 7; "label" := JStr "seven" ]};
    of_Location city_hall;
    JObj {[ "label" := JStr "no id" ]} ].

Definition odd_props : gmap string jsval :=
  {[ "locations" := JArr odd_entries; "version" := JNum 2 ]}.

Definition event_other_key : StorageEvent :=
  {| key := Some "theme"; newValue := Some drive_text |}.

(** ** Admin Page (index.tsx, 262-463)

    The local state of the admin page and its handlers. A handler returns
    the page after the state updates it requests, and what it emits: the
    actions it dispatches and the alerts it raises, in order. [parseFloat]
    and [Number.prototype.toString] are built-ins of the host and
    parameters here; the identifier [crypto.randomUUID] returns is an
    argument of the handler that asks for it. *)

Module Form.
Record t : Type := {
  address : string;
  schedule : string;
  lat : string;
  lng : string;
  label : string;
}.
End Form.

Record ConfirmModalState : Type := {
  isOpen : bool;
  locationId : string;
}.

Record AdminPage : Type := {
  isFormOpen : bool;
  editingLocation : option Location;
  formState : Form.t;
  announcementText : string;
  contactForm : ContactInfo;
  confirmModalState : ConfirmModalState;
}.

Inductive emitted : Type :=
| Dispatched (action : AppAction)
| Alerted (message : string).

(** The six [useState] cells at the first render (268-276). *)
Definition AdminPage_mount (s : AppState) : AdminPage :=
  {| isFormOpen := false;
     editingLocation := None;
     formState := {| Form.address := ""; Form.schedule := ""; Form.lat := "";
                     Form.lng := ""; Form.label := "" |};
     announcementText := announcements s;
     contactForm := contactInfo s;
     confirmModalState := {| isOpen := false; locationId := "" |} |}.

Definition setIsFormOpen (b : bool) (p : AdminPage) : AdminPage :=
  {| isFormOpen := b;
     editingLocation := editingLocation p;
     formState := formState p;
     announcementText := announcementText p;
     contactForm := contactForm p;
     confirmModalState := confirmModalState p |}.

Definition setEditingLocation (l : option Location) (p : AdminPage) : AdminPage :=
  {| isFormOpen := isFormOpen p;
     editingLocation := l;
     formState := formState p;
     announcementText := announcementText p;
     contactForm := contactForm p;
     confirmModalState := confirmModalState p |}.

Definition setFormState (f : Form.t) (p : AdminPage) : AdminPage :=
  {| isFormOpen := isFormOpen p;
     editingLocation := editingLocation p;
     formState := f;
     announcementText := announcementText p;
     contactForm := contactForm p;
     confirmModalState := confirmModalState p |}.

Definition setAnnouncementText (text : string) (p : AdminPage) : AdminPage :=
  {| isFormOpen := isFormOpen p;
     editingLocation := editingLocation p;
     formState := formState p;
     announcementText := text;
     contactForm := contactForm p;
     confirmModalState := confirmModalState p |}.

Definition setContactForm (c : ContactInfo) (p : AdminPage) : AdminPage :=
  {| isFormOpen := isFormOpen p;
     editingLocation := editingLocation p;
     formState := formState p;
     announcementText := announcementText p;
     contactForm := c;
     confirmModalState := confirmModalState p |}.

Definition setConfirmModalState (m : ConfirmModalState) (p : AdminPage) : AdminPage :=
  {| isFormOpen := isFormOpen p;
     editingLocation := editingLocation p;
     formState := formState p;
     announcementText := announcementText p;
     contactForm := contactForm p;
     confirmModalState := m |}.

(** [{...prev, lat: ..., lng: ...}] *)
Definition with_coordinates (lat lng : string) (f : Form.t) : Form.t :=
  {| Form.address := Form.address f; Form.schedule := Form.schedule f;
     Form.lat := lat; Form.lng := lng; Form.label := Form.label f |}.

(** A string in a condition: the empty string is falsy. *)
Definition falsy (s : string) : bool := bool_decide (s = "").

Definition invalid_form_message : string :=
  "Please provide a valid address, label, and coordinates.".

Section AdminPage.

Variable parseFloat : string → float.
Variable Number_toString : float → string.

(** The click handler of the map (306-314). *)
Definition handleClick (lat lng : float) (p : AdminPage) : AdminPage :=
  if isFormOpen p && negb (bool_decide (is_Some (editingLocation p))) then
    setFormState (with_coordinates (Number_toString lat) (Number_toString lng)
                                   (formState p)) p
  else p.

(** The [dragend] handler of the marker of the new location (366-369). *)
Definition handleDragEnd (lat lng : float) (p : AdminPage) : AdminPage :=
  setFormState (with_coordinates (Number_toString lat) (Number_toString lng)
                                 (formState p)) p.

Definition handleAddNewClick (p : AdminPage) : AdminPage :=
  setIsFormOpen true
    (setFormState {| Form.address := ""; Form.schedule := ""; Form.lat := "";
                     Form.lng := ""; Form.label := "" |}
       (setEditingLocation None p)).

Definition handleStartEdit (location : Location) (p : AdminPage) : AdminPage :=
  setIsFormOpen true
    (setFormState {| Form.address := address location;
                     Form.schedule := schedule location;
                     Form.lat := Number_toString (lat location);
                     Form.lng := Number_toString (lng location);
                     Form.label := label location |}
       (setEditingLocation (Some location) p)).

Definition handleCancel (p : AdminPage) : AdminPage :=
  setEditingLocation None (setIsFormOpen false p).

Definition handleFormSubmit (uuid : string) (p : AdminPage) : AdminPage * list emitted :=
  let lat := parseFloat (Form.lat (formState p)) in
  let lng := parseFloat (Form.lng (formState p)) in
  if is_nan lat || is_nan lng
     || falsy (Form.address (formState p)) || falsy (Form.label (formState p))
  then (p, [Alerted invalid_form_message])
  else
    match editingLocation p with
    | Some editing =>
        let updatedLocation :=
          {| id := id editing;
             lat := lat;
             lng := lng;
             address := Form.address (formState p);
             schedule := Form.schedule (formState p);
             label := Form.label (formState p) |} in
        (handleCancel p, [Dispatched (EDIT_LOCATION updatedLocation)])
    | None =>
        let newLocation :=
          {| id := uuid;
             lat := lat;
             lng := lng;
             address := Form.address (formState p);
             schedule := Form.schedule (formState p);
             label := Form.label (formState p) |} in
        (handleCancel p, [Dispatched (ADD_LOCATION newLocation)])
    end.

Definition handleDeleteClick (i : string) (p : AdminPage) : AdminPage :=
  setConfirmModalState {| isOpen := true; locationId := i |} p.

Definition handleConfirmDelete (p : AdminPage) : AdminPage * list emitted :=
  let closed := {| isOpen := false; locationId := "" |} in
  let i := locationId (confirmModalState p) in
  if falsy i then (setConfirmModalState closed p, [])
  else
    let p' := match editingLocation p with
              | Some editing => if bool_decide (id editing = i) then handleCancel p else p
              | None => p
              end in
    (setConfirmModalState closed p', [Dispatched (DELETE_LOCATION i)]).

Definition handleCancelDelete (p : AdminPage) : AdminPage :=
  setConfirmModalState {| isOpen := false; locationId := "" |} p.

Definition handleSaveAnnouncements (p : AdminPage) : AdminPage * list emitted :=
  (p, [Dispatched (SET_ANNOUNCEMENTS (announcementText p));
       Alerted "Announcements saved!"]).

Definition handleSaveContactInfo (p : AdminPage) : AdminPage * list emitted :=
  (p, [Dispatched (SET_CONTACT_INFO (contactForm p));
       Alerted "Contact information saved!"]).

(** What the user and the map can do on the page, and the handler each
    event runs (465-630). An input replaces one field of its form. *)
Inductive AdminEvent : Type :=
| map_click (lat lng : float)
| marker_dragend (lat lng : float)
| click_add_new
| click_edit (location : Location)
| click_cancel
| change_address (value : string)
| change_label (value : string)
| change_schedule (value : string)
| change_lat (value : string)
| change_lng (value : string)
| submit_form (uuid : string)
| click_delete (i : string)
| confirm_delete
| cancel_delete
| change_announcements (value : string)
| save_announcements
| change_email (value : string)
| change_phone (value : string)
| change_office (value : string)
| save_contact_info.

Definition AdminPage_handle (event : AdminEvent) (p : AdminPage)
  : AdminPage * list emitted :=
  let f := formState p in
  let c := contactForm p in
  match event with
  | map_click lat lng => (handleClick lat lng p, [])
  | marker_dragend lat lng => (handleDragEnd lat lng p, [])
  | click_add_new => (handleAddNewClick p, [])
  | click_edit location => (handleStartEdit location p, [])
  | click_cancel => (handleCancel p, [])
  | change_address value =>
      (setFormState {| Form.address := value; Form.schedule := Form.schedule f;
                       Form.lat := Form.lat f; Form.lng := Form.lng f;
                       Form.label := Form.label f |} p, [])
  | change_label value =>
      (setFormState {| Form.address := Form.address f; Form.schedule := Form.schedule f;
                       Form.lat := Form.lat f; Form.lng := Form.lng f;
                       Form.label := value |} p, [])
  | change_schedule value =>
      (setFormState {| Form.address := Form.address f; Form.schedule := value;
                       Form.lat := Form.lat f; Form.lng := Form.lng f;
                       Form.label := Form.label f |} p, [])
  | change_lat value => (setFormState (with_coordinates value (Form.lng f) f) p, [])
  | change_lng value => (setFormState (with_coordinates (Form.lat f) value f) p, [])
  | submit_form uuid => handleFormSubmit uuid p
  | click_delete i => (handleDeleteClick i p, [])
  | confirm_delete => handleConfirmDelete p
  | cancel_delete => (handleCancelDelete p, [])
  | change_announcements value => (setAnnouncementText value p, [])
  | save_announcements => handleSaveAnnouncements p
  | change_email value =>
      (setContactForm {| email := value; phone := phone c; office := office c |} p, [])
  | change_phone value =>
      (setContactForm {| email := email c; phone := value; office := office c |} p, [])
  | change_office value =>
      (setContactForm {| email := email c; phone := phone c; office := value |} p, [])
  | save_contact_info => handleSaveContactInfo p
  end.

End AdminPage.

(** The actions a handler dispatched, reduced in order from a state. *)
Fixpoint reduce_emitted (out : list emitted) (st : jsval) : completion jsval :=
  match out with
  | [] => Normal st
  | Dispatched action :: out' => appReducer st action ≫= reduce_emitted out'
  | Alerted _ :: out' => reduce_emitted out' st
  end.

(** The pages reached from the first render through events. *)
Inductive AdminPage_reachable (parseFloat : string → float)
    (Number_toString : float → string) (s : AppState) : AdminPage → Prop :=
| AdminPage_mounted :
    AdminPage_reachable parseFloat Number_toString s (AdminPage_mount s)
| AdminPage_handled event p :
    AdminPage_reachable parseFloat Number_toString s p →
    AdminPage_reachable parseFloat Number_toString s
      (fst (AdminPage_handle parseFloat Number_toString event p)).

(** Sample host functions: [parseFloat] on the two texts below (every other
    text is taken to be no number), [Number.prototype.toString] on the
    coordinates of [city_hall]. *)
Definition sample_parseFloat (text : string) : float :=
  if bool_decide (text = "16.4") then 16.4%float
  else if bool_decide (text = "120.6") then 120.6%float
  else nan.

Definition sample_toString (x : float) : string :=
  if PrimFloat.eqb x 16.4 then "16.4"
  else if PrimFloat.eqb x 120.6 then "120.6"
  else "NaN".

Definition city_hall_form : Form.t :=
  {| Form.address := "City Hall"; Form.schedule := "Mon-Fri";
     Form.lat := "16.4"; Form.lng := "120.6"; Form.label := "CH" |}.

Definition adding_city_hall : AdminPage :=
  {| isFormOpen := true;
     editingLocation := None;
     formState := city_hall_form;
     announcementText := announcements initialAppState;
     contactForm := contactInfo initialAppState;
     confirmModalState := {| isOpen := false; locationId := "" |} |}.

Definition one_location : AppState := with_locations initialAppState [city_hall].

Definition editing_city_hall : AdminPage :=
  {| isFormOpen := true;
     editingLocation := Some city_hall;
     formState := city_hall_form;
     announcementText := announcements initialAppState;
     contactForm := contactInfo initialAppState;
     confirmModalState := {| isOpen := false; locationId := "" |} |}.

Definition new_city_hall : Location :=
  {| id := "u1"; lat := 16.4; lng := 120.6;
     address := "City Hall"; schedule := "Mon-Fri"; label := "CH" |}.

(** ** Navigation and login (index.tsx, 220-234, 632-737)

    What the [App] component keeps besides the reducer's state, with the
    two parts of the browser its handlers touch: the fragment of the
    address and the session storage. *)

Record Tab : Type := {
  page : string;
  isAuthenticated : bool;
  isMenuOpen : bool;
  location_hash : string;                 (* window.location.hash *)
  sessionStorage : gmap string string;
}.

(** [hash.substring(1) || '/'] *)
Definition route (hash : string) : string :=
  let path := match hash with
              | EmptyString => EmptyString
              | String _ rest => rest
              end in
  if falsy path then "/" else path.

(** What [window.location.hash] reads after [window.location.hash = value],
    for a value without characters the address would escape (the paths of
    the program have none): a leading [#] is dropped, and an empty fragment
    reads as the empty string. *)
Definition number_sign : Ascii.ascii := Ascii.ascii_of_nat 35.

Definition assigned_hash (value : string) : string :=
  let fragment := match value with
                  | String c rest => if bool_decide (c = number_sign) then rest else value
                  | EmptyString => value
                  end in
  if falsy fragment then "" else String number_sign fragment.

(** The first render of [App] (633-636). *)
Definition App_mount (hash : string) (session : gmap string string) : Tab :=
  {| page := route hash;
     isAuthenticated := bool_decide (session !! "isAuthenticated" = Some "true");
     isMenuOpen := false;
     location_hash := hash;
     sessionStorage := session |}.

Definition setPage (value : string) (t : Tab) : Tab :=
  {| page := value; isAuthenticated := isAuthenticated t; isMenuOpen := isMenuOpen t;
     location_hash := location_hash t; sessionStorage := sessionStorage t |}.

Definition setIsAuthenticated (b : bool) (t : Tab) : Tab :=
  {| page := page t; isAuthenticated := b; isMenuOpen := isMenuOpen t;
     location_hash := location_hash t; sessionStorage := sessionStorage t |}.

Definition setIsMenuOpen (b : bool) (t : Tab) : Tab :=
  {| page := page t; isAuthenticated := isAuthenticated t; isMenuOpen := b;
     location_hash := location_hash t; sessionStorage := sessionStorage t |}.

Definition set_location_hash (value : string) (t : Tab) : Tab :=
  {| page := page t; isAuthenticated := isAuthenticated t; isMenuOpen := isMenuOpen t;
     location_hash := assigned_hash value; sessionStorage := sessionStorage t |}.

Definition set_sessionStorage (items : gmap string string) (t : Tab) : Tab :=
  {| page := page t; isAuthenticated := isAuthenticated t; isMenuOpen := isMenuOpen t;
     location_hash := location_hash t; sessionStorage := items |}.

(** The listener of [hashchange] (681-687): it runs after the fragment has
    changed. *)
Definition handleHashChange (t : Tab) : Tab :=
  setPage (route (location_hash t)) t.

Definition navigate (path : string) (t : Tab) : Tab :=
  setIsMenuOpen false (set_location_hash path t).

Definition handleLogout (t : Tab) : Tab :=
  setIsMenuOpen false
    (set_location_hash "/"
       (setIsAuthenticated false
          (set_sessionStorage (delete "isAuthenticated" (sessionStorage t)) t))).

Definition handleLoginSuccess (t : Tab) : Tab :=
  set_location_hash "/admin"
    (setIsAuthenticated true
       (set_sessionStorage (<["isAuthenticated" := "true"]> (sessionStorage t)) t)).

(** The login page (220-234). *)
Record LoginPage : Type := {
  password : string;
  error : string;
}.

Definition handleSubmit (l : LoginPage) (t : Tab) : LoginPage * Tab :=
  if bool_decide (password l = "Netlify#123")
  then ({| password := password l; error := "" |}, handleLoginSuccess t)
  else ({| password := password l; error := "Incorrect password. Please try again." |}, t).

(** What [renderPage] returns (710-737): nothing, or one of the pages with
    the part of the state it is given. *)
Inductive rendered : Type :=
| nothing
| render_AnnouncementsPage (announcements : option jsval)
| render_ContactPage (contactInfo : option jsval)
| render_LoginPage
| render_AdminPage (state : jsval)
| render_MapView (locations : option jsval).

Definition renderPage (state : jsval) (t : Tab) : completion (rendered * Tab) :=
  let effectivePage := if falsy (page t) then "/" else page t in
  if bool_decide (effectivePage = "/admin") && negb (isAuthenticated t) then
    Normal (nothing, set_location_hash "/login" t)
  else if bool_decide (effectivePage = "/announcements") then
    a ← get state "announcements"; Normal (render_AnnouncementsPage a, t)
  else if bool_decide (effectivePage = "/contact") then
    c ← get state "contactInfo"; Normal (render_ContactPage c, t)
  else if bool_decide (effectivePage = "/login") then
    Normal (render_LoginPage, t)
  else if bool_decide (effectivePage = "/admin") then
    Normal (render_AdminPage state, t)
  else
    l ← get state "locations"; Normal (render_MapView l, t).

(** What can happen to the tab. The browser delivers [hashchange] with the
    fragment the address has by then: the one a handler assigned, or one
    from the address bar or the back button. A link of the menu, the logout
    link or the menu button is clicked; the pointer leaves the menu; the
    login form is submitted; the page is rendered. *)
Inductive TabEvent : Type :=
| hashchange (hash : string)
| click_link (path : string)
| click_logout
| click_menu
| leave_menu
| submit_login (l : LoginPage)
| render (state : jsval).

Definition Tab_handle (event : TabEvent) (t : Tab) : Tab :=
  match event with
  | hashchange hash =>
      handleHashChange
        {| page := page t; isAuthenticated := isAuthenticated t;
           isMenuOpen := isMenuOpen t; location_hash := hash;
           sessionStorage := sessionStorage t |}
  | click_link path => navigate path t
  | click_logout => handleLogout t
  | click_menu => setIsMenuOpen (negb (isMenuOpen t)) t
  | leave_menu => setIsMenuOpen false t
  | submit_login l => snd (handleSubmit l t)
  | render state =>
      match renderPage state t with
      | Normal (_, t') => t'
      | Throw _ => t
      end
  end.

(** The tabs reached from a first render through events. *)
Inductive Tab_reachable (hash : string) (session : gmap string string) : Tab → Prop :=
| Tab_mounted :
    Tab_reachable hash session (App_mount hash session)
| Tab_handled event t :
    Tab_reachable hash session t →
    Tab_reachable hash session (Tab_handle event t).

Definition visitor : Tab := App_mount "" ∅.

Definition right_password : LoginPage := {| password := "Netlify#123"; error := "" |}.

Definition wrong_password : LoginPage := {| password := "guess"; error := "" |}.

Definition visit_without_password : list TabEvent :=
  [ hashchange (assigned_hash "/admin");
    render (of_AppState initialAppState);
    hashchange (assigned_hash "/login");
    submit_login wrong_password;
    click_link "/admin";
    hashchange (assigned_hash "/admin") ].

Definition typed_city_hall : list AdminEvent :=
  [ click_add_new;
    change_address "City Hall";
    change_label "CH";
    change_schedule "Mon-Fri" ].

(* THEOREMS *)

(** ** The reducer on well-typed states *)

Lemma with_locations_same (s : AppState) : with_locations s (locations s) = s.
Proof. by destruct s. Qed.

Lemma get_locations (s : AppState) :
  get (of_AppState s) "locations" = Normal (Some (JArr (of_Location <$> locations s))).
Proof. reflexivity. Qed.

Lemma get_id (l : Location) : get (of_Location l) "id" = Normal (Some (JStr (id l))).
Proof. reflexivity. Qed.

Lemma set_locations (s : AppState) (locs : list Location) :
  JObj (<["locations" := JArr (of_Location <$> locs)]> (spread (of_AppState s)))
  = of_AppState (with_locations s locs).
Proof. reflexivity. Qed.

Lemma array_map_replace (new : Location) (locs : list Location) :
  array_map (λ loc, i ← get loc "id";
                    Normal (if is_string i (id new) then of_Location new else loc))
            (of_Location <$> locs)
  = Normal (of_Location <$> (replace_id new <$> locs)).
Proof.
  induction locs as [|l locs IH]; [done|].
  rewrite !fmap_cons. cbn [array_map]. rewrite IH, get_id. cbn.
  unfold replace_id. by case_bool_decide.
Qed.

Lemma array_filter_other (i : string) (locs : list Location) :
  array_filter (λ loc, j ← get loc "id"; Normal (negb (is_string j i)))
               (of_Location <$> locs)
  = Normal (of_Location <$> filter (λ l, id l ≠ i) locs).
Proof.
  induction locs as [|l locs IH]; [done|].
  rewrite fmap_cons. cbn [array_filter]. rewrite IH, get_id. cbn.
  case_bool_decide; by case_decide.
Qed.

Lemma reduce_ADD_LOCATION (s : AppState) (loc : Location) :
  appReducer (of_AppState s) (ADD_LOCATION loc)
  = Normal (of_AppState (with_locations s (locations s ++ [loc]))).
Proof.
  unfold appReducer. rewrite get_locations. cbn.
  by rewrite <- set_locations, fmap_app.
Qed.

Lemma reduce_EDIT_LOCATION (s : AppState) (loc : Location) :
  appReducer (of_AppState s) (EDIT_LOCATION loc)
  = Normal (of_AppState (with_locations s (replace_id loc <$> locations s))).
Proof.
  unfold appReducer. rewrite get_locations. cbn [mbind completion_bind array].
  rewrite array_map_replace. cbn [mbind completion_bind]. by rewrite set_locations.
Qed.

Lemma reduce_DELETE_LOCATION (s : AppState) (i : string) :
  appReducer (of_AppState s) (DELETE_LOCATION i)
  = Normal (of_AppState (with_locations s (filter (λ l, id l ≠ i) (locations s)))).
Proof.
  unfold appReducer. rewrite get_locations. cbn [mbind completion_bind array].
  rewrite array_filter_other. cbn [mbind completion_bind]. by rewrite set_locations.
Qed.

Lemma reduce_SET_ANNOUNCEMENTS (s : AppState) (text : string) :
  appReducer (of_AppState s) (SET_ANNOUNCEMENTS text)
  = Normal (of_AppState {| locations := locations s;
                           announcements := text;
                           contactInfo := contactInfo s |}).
Proof. reflexivity. Qed.

Lemma reduce_SET_CONTACT_INFO (s : AppState) (info : ContactInfo) :
  appReducer (of_AppState s) (SET_CONTACT_INFO info)
  = Normal (of_AppState {| locations := locations s;
                           announcements := announcements s;
                           contactInfo := info |}).
Proof. reflexivity. Qed.

Lemma appReducer_total (s : AppState) (action : AppAction) :
  ∃ st', appReducer (of_AppState s) action = Normal st'.
Proof.
  destruct action; eexists;
    [ reflexivity | apply reduce_ADD_LOCATION | apply reduce_EDIT_LOCATION
    | apply reduce_DELETE_LOCATION | reflexivity | reflexivity ].
Qed.

(** On a state that is not an AppState the reducer may throw. *)
Example reduce_without_locations :
  appReducer (JObj ∅) (ADD_LOCATION city_hall) = Throw TypeError
  ∧ appReducer JNull (DELETE_LOCATION "a") = Throw TypeError
  ∧ appReducer JNull (SET_ANNOUNCEMENTS "x")
    = Normal (JObj {[ "announcements" := JStr "x" ]}).
Proof. repeat split; reflexivity. Qed.

Example scenario_1 :
  appReducer (of_AppState initialAppState) (ADD_LOCATION city_hall)
  = Normal (of_AppState (with_locations initialAppState [city_hall])).
Proof. reflexivity. Qed.

Example scenario_2 :
  appReducer (of_AppState (with_locations initialAppState [city_hall]))
             (EDIT_LOCATION city_hall_annex)
  = Normal (of_AppState (with_locations initialAppState [city_hall_annex])).
Proof. reflexivity. Qed.

Example scenario_3 :
  appReducer (of_AppState (with_locations initialAppState [city_hall; market]))
             (DELETE_LOCATION "a")
  = Normal (of_AppState (with_locations initialAppState [market])).
Proof. reflexivity. Qed.

(** ** Uniqueness of ids *)

Lemma location_ids_of_AppState (s : AppState) :
  location_ids (of_AppState s) = (λ i, Some (JStr i)) <$> ids s.
Proof.
  unfold ids. rewrite <- list_fmap_compose.
  change (location_ids (of_AppState s))
    with ((λ loc, match loc with JObj fields => fields !! "id" | _ => None end)
            <$> (of_Location <$> locations s)).
  by rewrite <- list_fmap_compose.
Qed.

Lemma unique_ids_of_AppState (s : AppState) :
  unique_ids (of_AppState s) ↔ NoDup (ids s).
Proof.
  unfold unique_ids. rewrite location_ids_of_AppState.
  apply NoDup_fmap. by intros i j [= ->].
Qed.

Lemma ids_replace_id (new : Location) (locs : list Location) :
  id <$> (replace_id new <$> locs) = id <$> locs.
Proof.
  rewrite <- list_fmap_compose. apply list_fmap_ext. intros _ l _. cbn.
  unfold replace_id. by case_bool_decide.
Qed.

Lemma ids_filter_NoDup (i : string) (locs : list Location) :
  NoDup (id <$> locs) → NoDup (id <$> filter (λ l, id l ≠ i) locs).
Proof.
  induction locs as [|l locs IH]; [done|].
  rewrite fmap_cons, filter_cons, NoDup_cons. intros [Hl Hlocs].
  case_decide; [|by apply IH].
  rewrite fmap_cons, NoDup_cons. split; [|by apply IH].
  intros Hin. apply Hl. apply list_elem_of_fmap in Hin as (l' & Heq & Hl').
  apply list_elem_of_fmap. exists l'. split; [done|].
  by apply list_elem_of_filter in Hl' as [_ ?].
Qed.

Lemma replace_id_absent (new : Location) (locs : list Location) :
  id new ∉ id <$> locs → replace_id new <$> locs = locs.
Proof.
  intros Hnew. rewrite <- (list_fmap_id locs) at 2.
  apply list_fmap_ext. intros k l Hl. cbn. unfold replace_id.
  case_bool_decide as Heq; [|done].
  exfalso. apply Hnew. rewrite <- Heq. apply list_elem_of_fmap.
  exists l. split; [done|]. by eapply list_elem_of_lookup_2.
Qed.

Lemma replace_id_unique (new : Location) (locs : list Location) (i : nat) (l : Location) :
  NoDup (id <$> locs) →
  locs !! i = Some l →
  id l = id new →
  replace_id new <$> locs = <[i := new]> locs.
Proof.
  intros Hnodup Hl Hid. apply list_eq. intros j.
  rewrite list_lookup_fmap. destruct (decide (j = i)) as [->|Hne].
  - rewrite Hl, list_lookup_insert_eq by (by eapply lookup_lt_Some). cbn.
    unfold replace_id. by rewrite bool_decide_eq_true_2.
  - rewrite list_lookup_insert_ne by done.
    destruct (locs !! j) as [l'|] eqn:Hl'; [|done]. cbn.
    unfold replace_id. case_bool_decide as Heq; [|done].
    exfalso. apply Hne. eapply NoDup_lookup; [exact Hnodup| |].
    + by rewrite list_lookup_fmap, Hl'.
    + rewrite list_lookup_fmap, Hl. cbn. by rewrite Hid, Heq.
Qed.

Lemma filter_id_absent (i : string) (locs : list Location) :
  i ∉ id <$> locs → filter (λ l, id l ≠ i) locs = locs.
Proof.
  intros Hi. induction locs as [|l locs IH]; [done|].
  rewrite fmap_cons, not_elem_of_cons in Hi. destruct Hi as [Hl Hlocs].
  rewrite filter_cons. case_decide; [|congruence]. by rewrite IH.
Qed.

Lemma preserved_by_respectful (s : AppState) (action : AppAction) :
  NoDup (ids s) →
  respects (of_AppState s) action →
  ∃ s', appReducer (of_AppState s) action = Normal (of_AppState s')
        ∧ NoDup (ids s').
Proof.
  intros Hs Hok. destruct action as [payload|loc|loc|i|text|info].
  - destruct Hok as (s' & -> & Hs'). exists s'. split; [done|].
    by apply unique_ids_of_AppState.
  - eexists. split; [apply reduce_ADD_LOCATION|].
    unfold respects in Hok. rewrite location_ids_of_AppState in Hok.
    unfold ids in *. cbn. rewrite fmap_app. apply NoDup_app.
    split; [done|]. split; [|apply NoDup_singleton].
    intros i Hi ->%list_elem_of_singleton. apply Hok.
    apply list_elem_of_fmap. by exists (id loc).
  - eexists. split; [apply reduce_EDIT_LOCATION|].
    unfold ids in *. cbn. by rewrite ids_replace_id.
  - eexists. split; [apply reduce_DELETE_LOCATION|].
    unfold ids in *. cbn. by apply ids_filter_NoDup.
  - eexists. split; [apply reduce_SET_ANNOUNCEMENTS|]. done.
  - eexists. split; [apply reduce_SET_CONTACT_INFO|]. done.
Qed.

(** ** The transitions of the model *)

(** C6. For every state [s] and every AddLocation(loc), the reducer returns
    the state whose locations are those of [s] with [loc] appended at the
    end, and whose announcements and contactInfo are those of [s]. The
    reducer does not inspect ids, so this holds in particular when the id of
    [loc] is not used in [s]. *)
Theorem add_location_appends (s : AppState) (loc : Location) :
  ∃ s', appReducer (of_AppState s) (ADD_LOCATION loc) = Normal (of_AppState s')
        ∧ locations s' = locations s ++ [loc]
        ∧ announcements s' = announcements s
        ∧ contactInfo s' = contactInfo s.
Proof.
  exists (with_locations s (locations s ++ [loc])).
  split; [apply reduce_ADD_LOCATION|done].
Qed.

(** C7. For every state [s] and every EditLocation(loc): the result has the
    same announcements and contactInfo and as many locations; at every
    position, an entry whose id is that of [loc] is replaced by [loc] and an
    entry with another id is kept (so, the ids of [s] being pairwise
    distinct, the one entry with that id is replaced at its position and
    all the others are unchanged); and when no entry of [s] has the id of
    [loc], the result is [s] itself. *)
Theorem edit_location_replaces_in_place (s : AppState) (loc : Location) :
  ∃ s', appReducer (of_AppState s) (EDIT_LOCATION loc) = Normal (of_AppState s')
        ∧ announcements s' = announcements s
        ∧ contactInfo s' = contactInfo s
        ∧ length (locations s') = length (locations s)
        ∧ (∀ i l, locations s !! i = Some l →
                  locations s' !! i = Some (if bool_decide (id l = id loc) then loc else l))
        ∧ (NoDup (ids s) →
           ∀ i l, locations s !! i = Some l → id l = id loc →
                  locations s' = <[i := loc]> (locations s))
        ∧ (id loc ∉ ids s → s' = s).
Proof.
  exists (with_locations s (replace_id loc <$> locations s)).
  split; [apply reduce_EDIT_LOCATION|]. cbn.
  repeat split.
  - apply length_fmap.
  - intros i l Hl. by rewrite list_lookup_fmap, Hl.
  - intros Hnodup i l Hl Hid. by apply (replace_id_unique loc _ i l).
  - intros Hloc. rewrite replace_id_absent by done. apply with_locations_same.
Qed.

(** C8. For every state [s] and every DeleteLocation(i), the locations of the
    result are the entries of [s] whose id differs from [i], in their
    original order (so every entry with id [i] is gone, however many there
    are), announcements and contactInfo are unchanged, and when no entry has
    id [i] the result is [s] itself. *)
Theorem delete_location_filters (s : AppState) (i : string) :
  ∃ s', appReducer (of_AppState s) (DELETE_LOCATION i) = Normal (of_AppState s')
        ∧ locations s' = filter (λ l, id l ≠ i) (locations s)
        ∧ (i ∉ ids s')
        ∧ announcements s' = announcements s
        ∧ contactInfo s' = contactInfo s
        ∧ (i ∉ ids s → s' = s).
Proof.
  exists (with_locations s (filter (λ l, id l ≠ i) (locations s))).
  split; [apply reduce_DELETE_LOCATION|]. cbn.
  repeat split.
  - unfold ids. cbn. intros (l & Heq & Hl)%list_elem_of_fmap.
    by apply list_elem_of_filter in Hl as [? _].
  - intros Hi. rewrite filter_id_absent by done. apply with_locations_same.
Qed.

(** C9, as stated, fails: the reducer appends a location whose id is already
    used, and the ids of the result are no longer pairwise distinct. *)
Lemma add_location_accepts_used_id :
  unique_ids (of_AppState (with_locations initialAppState [city_hall]))
  ∧ ∃ st', appReducer (of_AppState (with_locations initialAppState [city_hall]))
                      (ADD_LOCATION city_hall_annex) = Normal st'
           ∧ ¬ unique_ids st'.
Proof.
  split.
  - apply unique_ids_of_AppState. apply NoDup_singleton.
  - eexists. split; [apply reduce_ADD_LOCATION|].
    rewrite unique_ids_of_AppState. cbn.
    intros [Hin _]%NoDup_cons. apply Hin. by left.
Qed.

(** C9, amended. Every transition that respects the precondition of its
    intent (ReplaceAll with a well-formed state whose ids are pairwise
    distinct, AddLocation with an id no location has yet; EditLocation,
    DeleteLocation, SetAnnouncements and SetContactInfo unconditionally)
    completes and takes a well-formed state with pairwise distinct ids to
    another one; the default state is one; so every state reached from the
    default state through such transitions is a well-formed AppState whose
    ids are pairwise distinct. *)
Theorem respectful_transitions_keep_ids_unique :
  (∀ s action,
     unique_ids (of_AppState s) →
     respects (of_AppState s) action →
     ∃ s', appReducer (of_AppState s) action = Normal (of_AppState s')
           ∧ unique_ids (of_AppState s'))
  ∧ (∀ st, reachable st → ∃ s, st = of_AppState s ∧ unique_ids st).
Proof.
  assert (∀ s action,
            unique_ids (of_AppState s) →
            respects (of_AppState s) action →
            ∃ s', appReducer (of_AppState s) action = Normal (of_AppState s')
                  ∧ unique_ids (of_AppState s')) as Hstep.
  { intros s action Hs%unique_ids_of_AppState Hok.
    destruct (preserved_by_respectful s action Hs Hok) as (s' & Hs' & Hnodup).
    exists s'. split; [done|]. by apply unique_ids_of_AppState. }
  split; [exact Hstep|].
  induction 1 as [|st action st' _ (s & -> & Hs) Hok Hred].
  - exists initialAppState. split; [done|].
    apply unique_ids_of_AppState, NoDup_nil_2.
  - destruct (Hstep s action Hs Hok) as (s' & Hs' & Hunique).
    rewrite Hs' in Hred. injection Hred as <-. by exists s'.
Qed.

Lemma respectful_transitions_keep_ids_unique_witness :
  reachable (of_AppState (with_locations initialAppState [city_hall; market]))
  ∧ ∃ s, of_AppState (with_locations initialAppState [city_hall; market]) = of_AppState s
         ∧ unique_ids (of_AppState (with_locations initialAppState [city_hall; market])).
Proof.
  assert (reachable (of_AppState (with_locations initialAppState [city_hall; market])))
    as Hreach.
  { apply (reachable_step (of_AppState (with_locations initialAppState [city_hall]))
                          (ADD_LOCATION market)).
    - apply (reachable_step (of_AppState initialAppState) (ADD_LOCATION city_hall)).
      + apply reachable_initial.
      + cbn. apply not_elem_of_nil.
      + reflexivity.
    - cbn. intros [=]%list_elem_of_singleton.
    - reflexivity. }
  split; [exact Hreach|].
  exact (proj2 respectful_transitions_keep_ids_unique _ Hreach).
Defined.

(** ** The effects of the component *)

Section Effects.

Variable JSON_parse : string → completion jsval.
Variable JSON_stringify : jsval → string.

Lemma truthy_nonempty (text : string) : text ≠ "" → truthy (Some text) = Some text.
Proof. by destruct text. Qed.

Lemma state_save_effect (ok : bool) (w : World) :
  state (save_effect JSON_stringify ok w) = state w.
Proof. unfold save_effect. by destruct ok. Qed.

Lemma trace_save_effect (ok : bool) (w : World) :
  trace (save_effect JSON_stringify ok w)
  = trace w ++ setItem STORAGE_KEY (JSON_stringify (state w))
               :: (if ok then [] else [console_error DOMException]).
Proof. unfold save_effect. destruct ok; cbn; [done|]. by rewrite <- app_assoc. Qed.

Lemma localStorage_save_effect (ok : bool) (w : World) :
  localStorage (save_effect JSON_stringify ok w)
  = if ok then <[STORAGE_KEY := JSON_stringify (state w)]> (localStorage w)
    else localStorage w.
Proof. unfold save_effect. by destruct ok. Qed.

Lemma load_effect_nothing_stored (ok : bool) (w : World) :
  localStorage w !! STORAGE_KEY = None →
  snd (load_effect JSON_parse ok w) = None
  ∧ state (fst (load_effect JSON_parse ok w)) = state w.
Proof.
  intros Hnone. unfold load_effect. destruct ok; cbn; [|done]. by rewrite Hnone.
Qed.

Lemma load_effect_malformed (ok : bool) (w : World) (text : string) (e : exn) :
  localStorage w !! STORAGE_KEY = Some text →
  JSON_parse text = Throw e →
  snd (load_effect JSON_parse ok w) = None
  ∧ state (fst (load_effect JSON_parse ok w)) = state w.
Proof.
  intros Hsome Hparse. unfold load_effect. destruct ok; cbn; [|done].
  rewrite Hsome. destruct text; cbn; [done|]. by rewrite Hparse.
Qed.


(** C2. For every world [w] and every storage event on the key of the
    application that carries a non-empty new value: when the value parses to
    [s'] the state afterwards is exactly [s'], whatever the state was; when
    parsing throws, the state afterwards is the state of [w]. *)
Theorem storage_event_adopts_or_retains
    (w : World) (event : StorageEvent) (text : string) (ok : bool) :
  key event = Some STORAGE_KEY →
  newValue event = Some text →
  text ≠ "" →
  (∀ s', JSON_parse text = Normal s' →
     ∃ w', storage_event JSON_parse JSON_stringify event ok w = Normal w'
           ∧ state w' = s')
  ∧ (∀ e, JSON_parse text = Throw e →
     ∃ w', storage_event JSON_parse JSON_stringify event ok w = Normal w'
           ∧ state w' = state w).
Proof.
  intros Hkey Hnew Htext.
  unfold storage_event, handleStorageChange.
  rewrite Hkey, Hnew, bool_decide_eq_true_2, truthy_nonempty by done. cbn.
  split.
  - intros s' ->. cbn. eexists. split; [done|]. apply state_save_effect.
  - intros e ->. cbn. eexists. split; done.
Qed.

(** C10. A storage event on the key of the application whose new value is
    null or the empty string queues no action, and the state afterwards is
    the state before; nothing is written and nothing is reported. *)
Theorem storage_event_without_value_is_ignored
    (w : World) (event : StorageEvent) (ok : bool) :
  key event = Some STORAGE_KEY →
  newValue event = None ∨ newValue event = Some "" →
  snd (handleStorageChange JSON_parse event w) = None
  ∧ ∃ w', storage_event JSON_parse JSON_stringify event ok w = Normal w'
          ∧ state w' = state w
          ∧ trace w' = trace w.
Proof.
  intros Hkey Hnew. unfold storage_event, handleStorageChange.
  rewrite Hkey. destruct Hnew as [-> | ->]; cbn; (split; [done|]);
    eexists; split; done.
Qed.

(** C4. At startup, when nothing is stored under the key, or when the stored
    text does not parse, mounting completes without an exception and the
    state is the default AppState. *)
Theorem mount_falls_back_to_defaults
    (items : gmap string string) (ok_get ok_set ok_set' : bool) :
  items !! STORAGE_KEY = None
  ∨ (∃ text e, items !! STORAGE_KEY = Some text ∧ JSON_parse text = Throw e) →
  ∃ w, mount JSON_parse JSON_stringify items ok_get ok_set ok_set' = Normal w
       ∧ state w = of_AppState initialAppState.
Proof.
  intros Hitems. unfold mount.
  set (w0 := {| state := of_AppState initialAppState;
                localStorage := items; trace := [] |}).
  assert (snd (load_effect JSON_parse ok_get w0) = None
          ∧ state (fst (load_effect JSON_parse ok_get w0)) = state w0) as [Hq Hst].
  { destruct Hitems as [Hnone | (text & e & Hsome & Hparse)].
    - by apply load_effect_nothing_stored.
    - by eapply load_effect_malformed. }
  destruct (load_effect JSON_parse ok_get w0) as [w1 queued].
  cbn in Hq, Hst. subst queued. cbn.
  eexists. split; [done|]. by rewrite state_save_effect.
Qed.


(** C3, amended. For every local transition that the reducer completes, the
    component serializes the new state and calls [setItem] once, at once
    (nothing is batched or delayed). When the browser accepts the write, the
    stored text is the serialization of the new state; when it refuses, the
    exception is caught and reported, the stored items are left as they
    were, and the state is the new state all the same. *)
Theorem local_transition_is_saved
    (w : World) (action : AppAction) (state' : jsval) (ok : bool) :
  appReducer (state w) action = Normal state' →
  ∃ w', dispatch JSON_stringify action ok w = Normal w'
        ∧ state w' = state'
        ∧ trace w' = trace w ++ setItem STORAGE_KEY (JSON_stringify state')
                               :: (if ok then [] else [console_error DOMException])
        ∧ localStorage w' = (if ok
                             then <[STORAGE_KEY := JSON_stringify state']> (localStorage w)
                             else localStorage w)
        ∧ (ok = true → localStorage w' !! STORAGE_KEY = Some (JSON_stringify (state w'))).
Proof.
  intros Hstep. unfold dispatch. rewrite Hstep. cbn.
  eexists. split; [done|].
  rewrite state_save_effect, trace_save_effect, localStorage_save_effect. cbn.
  repeat split. intros ->. apply lookup_insert_eq.
Qed.

End Effects.

(** ** Closed examples *)

Lemma storage_event_adopts_or_retains_witness :
  key event_drive = Some STORAGE_KEY
  ∧ newValue event_drive = Some drive_text
  ∧ drive_text ≠ ""
  ∧ (∀ s', sample_parse drive_text = Normal s' →
       ∃ w', storage_event sample_parse sample_stringify event_drive true
                           fresh_world = Normal w'
             ∧ state w' = s')
  ∧ (∀ e, sample_parse drive_text = Throw e →
       ∃ w', storage_event sample_parse sample_stringify event_drive true
                           fresh_world = Normal w'
             ∧ state w' = state fresh_world).
Proof.
  repeat split; [done|..];
    apply (storage_event_adopts_or_retains sample_parse sample_stringify
             fresh_world event_drive drive_text true); done.
Defined.

Lemma storage_event_without_value_is_ignored_witness :
  key event_removed = Some STORAGE_KEY
  ∧ (newValue event_removed = None ∨ newValue event_removed = Some "")
  ∧ snd (handleStorageChange sample_parse event_removed fresh_world) = None
  ∧ ∃ w', storage_event sample_parse sample_stringify event_removed true
                        fresh_world = Normal w'
          ∧ state w' = state fresh_world
          ∧ trace w' = trace fresh_world.
Proof.
  split; [done|]. split; [by left|].
  apply (storage_event_without_value_is_ignored sample_parse sample_stringify
           fresh_world event_removed true); [done|by left].
Defined.

Lemma mount_falls_back_to_defaults_witness :
  (({[ STORAGE_KEY := "{oops" ]} : gmap string string) !! STORAGE_KEY = None
   ∨ ∃ text e, ({[ STORAGE_KEY := "{oops" ]} : gmap string string) !! STORAGE_KEY = Some text
               ∧ sample_parse text = Throw e)
  ∧ ∃ w, mount sample_parse sample_stringify {[ STORAGE_KEY := "{oops" ]}
               true true true = Normal w
         ∧ state w = of_AppState initialAppState.
Proof.
  assert (∃ text e, ({[ STORAGE_KEY := "{oops" ]} : gmap string string) !! STORAGE_KEY
                    = Some text ∧ sample_parse text = Throw e) as Hstored.
  { exists "{oops", SyntaxError. split; reflexivity. }
  split; [by right|].
  apply (mount_falls_back_to_defaults sample_parse sample_stringify
           {[ STORAGE_KEY := "{oops" ]} true true true).
  by right.
Defined.

Example scenario_4 :
  ∃ w w', dispatch sample_stringify (ADD_LOCATION city_hall) false fresh_world = Normal w
          ∧ storage_event sample_parse sample_stringify event_drive true w = Normal w'
          ∧ state w' = of_AppState drive_state.
Proof. do 2 eexists. repeat split; reflexivity. Qed.

Example storage_event_malformed :
  ∃ w, storage_event sample_parse sample_stringify event_malformed true
                     fresh_world = Normal w
       ∧ state w = state fresh_world
       ∧ trace w = [console_error SyntaxError].
Proof. eexists. repeat split; reflexivity. Qed.

Example scenario_5 :
  ∃ w, mount sample_parse sample_stringify {[ STORAGE_KEY := "{oops" ]}
             true true true = Normal w
       ∧ state w = of_AppState initialAppState
       ∧ trace w = [ getItem STORAGE_KEY;
                     console_error SyntaxError;
                     setItem STORAGE_KEY (sample_stringify (of_AppState initialAppState)) ].
Proof. eexists. repeat split; reflexivity. Qed.



(** C3, as stated, fails: in a browser that refuses every write the
    announcements are changed in memory, and afterwards nothing is stored
    under the key. *)
Lemma refused_write_is_not_persisted :
  ∃ w w', mount sample_parse sample_stringify ∅ true false false = Normal w
          ∧ dispatch sample_stringify drive false w = Normal w'
          ∧ state w' = of_AppState {| locations := [];
                                      announcements := "Collection drive this weekend";
                                      contactInfo := contactInfo initialAppState |}
          ∧ localStorage w' !! STORAGE_KEY = None.
Proof. do 2 eexists. repeat split; reflexivity. Qed.

Lemma local_transition_is_saved_witness :
  appReducer (state fresh_world) drive
  = Normal (of_AppState {| locations := [];
                           announcements := "Collection drive this weekend";
                           contactInfo := contactInfo initialAppState |})
  ∧ ∃ w', dispatch sample_stringify drive true fresh_world = Normal w'
          ∧ state w' = of_AppState {| locations := [];
                                      announcements := "Collection drive this weekend";
                                      contactInfo := contactInfo initialAppState |}
          ∧ trace w' = trace fresh_world
                       ++ [setItem STORAGE_KEY
                             (sample_stringify
                                (of_AppState {| locations := [];
                                                announcements := "Collection drive this weekend";
                                                contactInfo := contactInfo initialAppState |}))]
          ∧ localStorage w'
            = <[STORAGE_KEY :=
                  sample_stringify
                    (of_AppState {| locations := [];
                                    announcements := "Collection drive this weekend";
                                    contactInfo := contactInfo initialAppState |})]>
                (localStorage fresh_world)
          ∧ (true = true →
             localStorage w' !! STORAGE_KEY = Some (sample_stringify (state w'))).
Proof.
  split; [reflexivity|].
  exact (local_transition_is_saved sample_stringify fresh_world drive _ true eq_refl).
Defined.

(** ** How the transitions compose *)

Lemma bind_Normal {A B : Type} (f : A → completion B) (a : A) :
  (Normal a ≫= f) = f a.
Proof. reflexivity. Qed.

Lemma replace_id_twice (a b : Location) (locs : list Location) :
  id a = id b →
  replace_id b <$> (replace_id a <$> locs) = replace_id b <$> locs.
Proof.
  intros Hab. rewrite <- list_fmap_compose. apply list_fmap_ext.
  intros k l _. cbn. unfold replace_id. rewrite Hab.
  destruct (bool_decide (id l = id b)) eqn:Hl; [|by rewrite Hl].
  by rewrite bool_decide_eq_true_2.
Qed.

Lemma filter_id_twice (i : string) (locs : list Location) :
  filter (λ l, id l ≠ i) (filter (λ l, id l ≠ i) locs) = filter (λ l, id l ≠ i) locs.
Proof.
  induction locs as [|l locs IH]; [done|].
  rewrite filter_cons. case_decide; [|done].
  rewrite filter_cons. case_decide; [|done]. by rewrite IH.
Qed.

Lemma ids_filter_absent (i : string) (locs : list Location) :
  i ∉ id <$> filter (λ l, id l ≠ i) locs.
Proof.
  intros (l & Heq & Hl)%list_elem_of_fmap.
  by apply list_elem_of_filter in Hl as [? _].
Qed.

(** Adding a location under an id no location has and deleting that id
    again gives back the state one started from. *)
Theorem add_then_delete_restores (s : AppState) (loc : Location) :
  id loc ∉ ids s →
  (appReducer (of_AppState s) (ADD_LOCATION loc)
     ≫= λ st, appReducer st (DELETE_LOCATION (id loc)))
  = Normal (of_AppState s).
Proof.
  intros Hfresh. rewrite reduce_ADD_LOCATION, bind_Normal, reduce_DELETE_LOCATION.
  unfold with_locations. cbn. rewrite filter_app, filter_id_absent by done.
  rewrite filter_cons, decide_False by (intros H; by apply H).
  rewrite filter_nil, app_nil_r. by destruct s.
Qed.

Lemma add_then_delete_restores_witness :
  (id market ∉ ids (with_locations initialAppState [city_hall]))
  ∧ (appReducer (of_AppState (with_locations initialAppState [city_hall]))
                (ADD_LOCATION market)
       ≫= λ st, appReducer st (DELETE_LOCATION (id market)))
    = Normal (of_AppState (with_locations initialAppState [city_hall])).
Proof.
  assert (id market ∉ ids (with_locations initialAppState [city_hall])) as Hfresh.
  { cbn. intros [=]%list_elem_of_singleton. }
  split; [exact Hfresh|].
  exact (add_then_delete_restores _ _ Hfresh).
Defined.

(** Of two edits under the same id the later one wins: editing with [a] and
    then with [b] is editing with [b]. *)
Theorem later_edit_wins (s : AppState) (a b : Location) :
  id a = id b →
  (appReducer (of_AppState s) (EDIT_LOCATION a)
     ≫= λ st, appReducer st (EDIT_LOCATION b))
  = appReducer (of_AppState s) (EDIT_LOCATION b).
Proof.
  intros Hab. rewrite !reduce_EDIT_LOCATION, bind_Normal, reduce_EDIT_LOCATION.
  unfold with_locations. cbn. by rewrite replace_id_twice.
Qed.

Lemma later_edit_wins_witness :
  id city_hall = id city_hall_annex
  ∧ (appReducer (of_AppState (with_locations initialAppState [city_hall; market]))
                (EDIT_LOCATION city_hall)
       ≫= λ st, appReducer st (EDIT_LOCATION city_hall_annex))
    = appReducer (of_AppState (with_locations initialAppState [city_hall; market]))
                 (EDIT_LOCATION city_hall_annex).
Proof.
  split; [reflexivity|].
  exact (later_edit_wins _ city_hall city_hall_annex eq_refl).
Defined.

(** Once an id is deleted, deleting it again or editing under it changes
    nothing: the edit is dropped, it does not bring the location back. *)
Theorem deleted_id_stays_deleted (s : AppState) (loc : Location) :
  (appReducer (of_AppState s) (DELETE_LOCATION (id loc))
     ≫= λ st, appReducer st (DELETE_LOCATION (id loc)))
  = appReducer (of_AppState s) (DELETE_LOCATION (id loc))
  ∧ (appReducer (of_AppState s) (DELETE_LOCATION (id loc))
       ≫= λ st, appReducer st (EDIT_LOCATION loc))
    = appReducer (of_AppState s) (DELETE_LOCATION (id loc)).
Proof.
  rewrite !reduce_DELETE_LOCATION, !bind_Normal.
  rewrite reduce_DELETE_LOCATION, reduce_EDIT_LOCATION.
  unfold with_locations. cbn.
  rewrite filter_id_twice, replace_id_absent by apply ids_filter_absent.
  done.
Qed.

(** An edit never changes an id: the ids of the state, their number and
    their order are the same after every EditLocation. *)
Theorem edit_keeps_ids (s : AppState) (loc : Location) :
  ∃ s', appReducer (of_AppState s) (EDIT_LOCATION loc) = Normal (of_AppState s')
        ∧ ids s' = ids s.
Proof.
  eexists. split; [apply reduce_EDIT_LOCATION|].
  unfold ids. cbn. apply ids_replace_id.
Qed.

(** ** The reducer on stored data of any shape *)

Lemma array_map_by_id (g : option jsval → jsval → jsval) (l : list jsval) :
  (JNull ∉ l →
     array_map (λ loc, i ← get loc "id"; Normal (g i loc)) l
     = Normal ((λ x, g (match x with JObj fields => fields !! "id" | _ => None end) x) <$> l))
  ∧ (JNull ∈ l →
     array_map (λ loc, i ← get loc "id"; Normal (g i loc)) l = Throw TypeError).
Proof.
  induction l as [|x l [IHok IHnull]]; [split; [done|by intros ?%elem_of_nil]|].
  split.
  - intros [Hx Hl]%not_elem_of_cons. cbn [array_map]. rewrite (IHok Hl).
    by destruct x.
  - intros [<-|Hl]%elem_of_cons; [done|].
    cbn [array_map]. rewrite (IHnull Hl). by destruct x.
Qed.

Lemma array_filter_by_id (g : option jsval → bool) (l : list jsval) :
  (JNull ∉ l →
     array_filter (λ loc, i ← get loc "id"; Normal (g i)) l
     = Normal (filter (λ x, g (match x with JObj fields => fields !! "id" | _ => None end)
                            = true) l))
  ∧ (JNull ∈ l →
     array_filter (λ loc, i ← get loc "id"; Normal (g i)) l = Throw TypeError).
Proof.
  induction l as [|x l [IHok IHnull]]; [split; [done|by intros ?%elem_of_nil]|].
  split.
  - intros [Hx Hl]%not_elem_of_cons. cbn [array_filter]. rewrite (IHok Hl).
    rewrite filter_cons. destruct x; try done; cbn; by destruct (g _).
  - intros [<-|Hl]%elem_of_cons; [done|].
    cbn [array_filter]. rewrite (IHnull Hl). by destruct x.
Qed.

(** The reducer throws exactly when the state cannot be read the way the
    action reads it. AddLocation completes when the state is an object
    whose [locations] is an array or a string; EditLocation and
    DeleteLocation complete when it is an object whose [locations] is an
    array without a null entry; the other actions always complete; whatever
    is thrown is a TypeError. *)
Theorem reducer_throws_exactly_when (st : jsval) :
  (∀ loc, (∃ st', appReducer st (ADD_LOCATION loc) = Normal st')
          ↔ ∃ props, st = JObj props
                     ∧ ((∃ elems, props !! "locations" = Some (JArr elems))
                        ∨ (∃ text, props !! "locations" = Some (JStr text))))
  ∧ (∀ loc, (∃ st', appReducer st (EDIT_LOCATION loc) = Normal st')
            ↔ ∃ props elems, st = JObj props
                             ∧ props !! "locations" = Some (JArr elems)
                             ∧ JNull ∉ elems)
  ∧ (∀ i, (∃ st', appReducer st (DELETE_LOCATION i) = Normal st')
          ↔ ∃ props elems, st = JObj props
                           ∧ props !! "locations" = Some (JArr elems)
                           ∧ JNull ∉ elems)
  ∧ (∀ action, (∀ loc, action ≠ ADD_LOCATION loc) →
               (∀ loc, action ≠ EDIT_LOCATION loc) →
               (∀ i, action ≠ DELETE_LOCATION i) →
               ∃ st', appReducer st action = Normal st')
  ∧ (∀ action e, appReducer st action = Throw e → e = TypeError).
Proof.
  assert (∀ elems : list jsval, JNull ∈ elems ∨ JNull ∉ elems) as Hnull.
  { induction elems as [|x elems [IH|IH]].
    - right. apply not_elem_of_nil.
    - left. by right.
    - destruct x; try (right; apply not_elem_of_cons; by split). left. by left. }
  split; [|split; [|split; [|split]]].
  - intros loc. split.
    + intros [st' Hst']. destruct st as [| | | | |props]; try done.
      exists props. split; [done|]. cbn in Hst'.
      destruct (props !! "locations") as [[| | |text|elems|]|]; try done; eauto.
    + intros (props & -> & [[elems Hlocs]|[text Hlocs]]); cbn; rewrite Hlocs; eauto.
  - intros loc. split.
    + intros [st' Hst']. destruct st as [| | | | |props]; try done.
      cbn in Hst'. destruct (props !! "locations") as [[| | | |elems|]|] eqn:Hlocs; try done.
      exists props, elems. repeat split; try done.
      intros Hin. cbn in Hst'.
      by rewrite (proj2 (array_map_by_id
                   (λ i x, if is_string i (id loc) then of_Location loc else x) elems) Hin)
        in Hst'.
    + intros (props & elems & -> & Hlocs & Hin). cbn. rewrite Hlocs. cbn.
      rewrite (proj1 (array_map_by_id
                 (λ i x, if is_string i (id loc) then of_Location loc else x) elems) Hin).
      eauto.
  - intros i. split.
    + intros [st' Hst']. destruct st as [| | | | |props]; try done.
      cbn in Hst'. destruct (props !! "locations") as [[| | | |elems|]|] eqn:Hlocs; try done.
      exists props, elems. repeat split; try done.
      intros Hin. cbn in Hst'.
      by rewrite (proj2 (array_filter_by_id (λ j, negb (is_string j i)) elems) Hin) in Hst'.
    + intros (props & elems & -> & Hlocs & Hin). cbn. rewrite Hlocs. cbn.
      rewrite (proj1 (array_filter_by_id (λ j, negb (is_string j i)) elems) Hin).
      eauto.
  - intros [payload|loc|loc|i|text|info] Hadd Hedit Hdel; cbn; eauto.
    + by destruct (Hadd loc).
    + by destruct (Hedit loc).
    + by destruct (Hdel i).
  - intros [payload|loc|loc|i|text|info] e; cbn; try done.
    + destruct st as [| | | | |props]; cbn; try by intros [= <-].
      destruct (props !! "locations") as [[| | |text|elems|]|]; cbn; try done;
        by intros [= <-].
    + destruct st as [| | | | |props]; cbn; try by intros [= <-].
      destruct (props !! "locations") as [[| | | |elems|]|]; cbn; try by intros [= <-].
      destruct (Hnull elems) as [Hin|Hin].
      * rewrite (proj2 (array_map_by_id
                   (λ i x, if is_string i (id loc) then of_Location loc else x) elems) Hin).
        by intros [= <-].
      * by rewrite (proj1 (array_map_by_id
                   (λ i x, if is_string i (id loc) then of_Location loc else x) elems) Hin).
    + destruct st as [| | | | |props]; cbn; try by intros [= <-].
      destruct (props !! "locations") as [[| | | |elems|]|]; cbn; try by intros [= <-].
      destruct (Hnull elems) as [Hin|Hin].
      * rewrite (proj2 (array_filter_by_id (λ j, negb (is_string j i)) elems) Hin).
        by intros [= <-].
      * by rewrite (proj1 (array_filter_by_id (λ j, negb (is_string j i)) elems) Hin).
Qed.

(** On a state that is an object, every action but [SET_STATE] assigns one
    property and leaves every other property as it was, the ones the
    program does not know included. *)
Theorem other_properties_survive
    (props : gmap string jsval) (action : AppAction) (field : string) (st' : jsval) :
  written action = Some field →
  appReducer (JObj props) action = Normal st' →
  ∃ props', st' = JObj props'
            ∧ is_Some (props' !! field)
            ∧ ∀ k, k ≠ field → props' !! k = props !! k.
Proof.
  intros Hfield Hstep.
  assert (∃ v, st' = JObj (<[field := v]> props)) as [v ->].
  { destruct action as [payload|loc|loc|i|text|info]; cbn in Hfield, Hstep;
      try done; injection Hfield as <-.
    - destruct (props !! "locations" ≫= λ v, Some v) as [v|]; cbn in Hstep.
      + destruct (iterate (props !! "locations")) as [locs|]; [|done].
        cbn in Hstep. injection Hstep as <-. eauto.
      + destruct (iterate (props !! "locations")) as [locs|]; [|done].
        cbn in Hstep. injection Hstep as <-. eauto.
    - destruct (array (props !! "locations")) as [locs|]; [|done]. cbn in Hstep.
      destruct (array_map _ locs) as [locs'|]; [|done].
      cbn in Hstep. injection Hstep as <-. eauto.
    - destruct (array (props !! "locations")) as [locs|]; [|done]. cbn in Hstep.
      destruct (array_filter _ locs) as [locs'|]; [|done].
      cbn in Hstep. injection Hstep as <-. eauto.
    - injection Hstep as <-. eauto.
    - injection Hstep as <-. eauto. }
  eexists. split; [done|]. split.
  - rewrite lookup_insert_eq. eauto.
  - intros k Hk. by rewrite lookup_insert_ne.
Qed.

Lemma other_properties_survive_witness :
  written (DELETE_LOCATION "a") = Some "locations"
  ∧ appReducer (JObj odd_props) (DELETE_LOCATION "a")
    = Normal (JObj {[ "locations" := JArr [ JObj {[ "id" := JNum 7; "label" := JStr "seven" ]};
                                           JObj {[ "label" := JStr "no id" ]} ];
                      "version" := JNum 2 ]})
  ∧ ∃ props', JObj {[ "locations" := JArr [ JObj {[ "id" := JNum 7; "label" := JStr "seven" ]};
                                           JObj {[ "label" := JStr "no id" ]} ];
                      "version" := JNum 2 ]} = JObj props'
              ∧ is_Some (props' !! "locations")
              ∧ ∀ k, k ≠ "locations" → props' !! k = odd_props !! k.
Proof.
  split; [reflexivity|]. split; [reflexivity|].
  exact (other_properties_survive odd_props (DELETE_LOCATION "a") "locations" _
           eq_refl eq_refl).
Defined.







(** ** The component across tabs and reloads *)

Section Tabs.

Variable JSON_parse : string → completion jsval.
Variable JSON_stringify : jsval → string.

Lemma load_effect_queues (ok : bool) (w : World) :
  state (fst (load_effect JSON_parse ok w)) = state w
  ∧ localStorage (fst (load_effect JSON_parse ok w)) = localStorage w
  ∧ (snd (load_effect JSON_parse ok w) = None
     ∨ ∃ v, snd (load_effect JSON_parse ok w) = Some (SET_STATE v)).
Proof.
  unfold load_effect. destruct ok; cbn; [|by eauto].
  destruct (truthy (localStorage w !! STORAGE_KEY)) as [text|]; cbn; [|by eauto].
  destruct (JSON_parse text) as [v|e]; cbn; eauto.
Qed.

Lemma handleStorageChange_queues (event : StorageEvent) (w : World) :
  state (fst (handleStorageChange JSON_parse event w)) = state w
  ∧ localStorage (fst (handleStorageChange JSON_parse event w)) = localStorage w
  ∧ (snd (handleStorageChange JSON_parse event w) = None
     ∨ ∃ v, snd (handleStorageChange JSON_parse event w) = Some (SET_STATE v)).
Proof.
  unfold handleStorageChange. case_bool_decide; [|by eauto].
  destruct (truthy (newValue event)) as [text|]; [|by eauto].
  destruct (JSON_parse text) as [v|e]; cbn; eauto.
Qed.

Lemma localStorage_save_effect_other (ok : bool) (w : World) (k : string) :
  k ≠ STORAGE_KEY →
  localStorage (save_effect JSON_stringify ok w) !! k = localStorage w !! k.
Proof.
  intros Hk. rewrite localStorage_save_effect. destruct ok; [|done].
  by rewrite lookup_insert_ne.
Qed.

(** A storage event for another key, or for no key at all (the area was
    cleared), is ignored whatever it carries: nothing is parsed, queued,
    written or reported, and the state stays. *)
Theorem storage_event_for_other_key_is_ignored
    (w : World) (event : StorageEvent) (ok : bool) :
  key event ≠ Some STORAGE_KEY →
  snd (handleStorageChange JSON_parse event w) = None
  ∧ ∃ w', storage_event JSON_parse JSON_stringify event ok w = Normal w'
          ∧ state w' = state w
          ∧ trace w' = trace w.
Proof.
  intros Hkey. unfold storage_event, handleStorageChange.
  rewrite bool_decide_eq_false_2 by done. cbn. split; [done|]. by eexists.
Qed.

(** The component writes one key only: whatever it does, every other item
    of the storage area is what it was (after a storage event: what the
    other tab made it). *)
Theorem other_items_are_never_written (k : string) :
  k ≠ STORAGE_KEY →
  (∀ items ok_get ok_set ok_set' w,
     mount JSON_parse JSON_stringify items ok_get ok_set ok_set' = Normal w →
     localStorage w !! k = items !! k)
  ∧ (∀ action ok w w',
       dispatch JSON_stringify action ok w = Normal w' →
       localStorage w' !! k = localStorage w !! k)
  ∧ (∀ event ok w w',
       storage_event JSON_parse JSON_stringify event ok w = Normal w' →
       localStorage w' !! k = changed event (localStorage w) !! k).
Proof.
  intros Hk.
  assert (∀ action ok w w',
            dispatch JSON_stringify action ok w = Normal w' →
            localStorage w' !! k = localStorage w !! k) as Hdispatch.
  { intros action ok w w'. unfold dispatch.
    destruct (appReducer (state w) action) as [st|]; [|done]. cbn.
    intros [= <-]. by rewrite localStorage_save_effect_other. }
  assert (∀ queued ok w w',
            flush JSON_stringify queued ok w = Normal w' →
            localStorage w' !! k = localStorage w !! k) as Hflush.
  { intros [action|] ok w w'; cbn; [apply Hdispatch|by intros [= <-]]. }
  split; [|split; [exact Hdispatch|]].
  - intros items ok_get ok_set ok_set' w. unfold mount.
    set (w0 := {| state := of_AppState initialAppState;
                  localStorage := items; trace := [] |}).
    destruct (load_effect_queues ok_get w0) as (_ & Hitems & _).
    destruct (load_effect JSON_parse ok_get w0) as [w1 queued]. cbn in Hitems.
    intros Hw%Hflush. by rewrite Hw, localStorage_save_effect_other, Hitems.
  - intros event ok w w'. unfold storage_event.
    set (w0 := set_localStorage (changed event (localStorage w)) w).
    destruct (handleStorageChange_queues event w0) as (_ & Hitems & _).
    destruct (handleStorageChange JSON_parse event w0) as [w1 queued]. cbn in Hitems.
    intros Hw%Hflush. by rewrite Hw, Hitems.
Qed.



(** Two tabs converge. When a tab completes a local transition and stores
    the new state, and the host reads that text back as the same value, a
    tab that receives the storage event ends in the same state, whatever
    its state was; and what it writes back is the text it received, so the
    stored text does not change again. *)
Theorem tabs_converge
    (tab other : World) (action : AppAction) (st : jsval) (ok : bool) :
  appReducer (state tab) action = Normal st →
  JSON_stringify st ≠ "" →
  JSON_parse (JSON_stringify st) = Normal st →
  ∃ tab' other',
    dispatch JSON_stringify action true tab = Normal tab'
    ∧ storage_event JSON_parse JSON_stringify
        {| key := Some STORAGE_KEY; newValue := localStorage tab' !! STORAGE_KEY |}
        ok other = Normal other'
    ∧ state other' = state tab'
    ∧ localStorage other' !! STORAGE_KEY = localStorage tab' !! STORAGE_KEY.
Proof.
  intros Hstep Htext Hparse.
  destruct (JSON_stringify st) as [|c text] eqn:Hst; [done|].
  exists (save_effect JSON_stringify true (set_state st tab)).
  exists (save_effect JSON_stringify ok
            (set_state st (set_localStorage
                             (<[STORAGE_KEY := String c text]> (localStorage other))
                             other))).
  split; [unfold dispatch; by rewrite Hstep|].
  rewrite !state_save_effect, !localStorage_save_effect. cbn.
  rewrite Hst, lookup_insert_eq.
  split; [|split; [done|destruct ok; by rewrite ?lookup_insert_eq]].
  unfold storage_event, handleStorageChange. cbn.
  by rewrite bool_decide_eq_true_2, Hparse.
Qed.

(** A reload restores the state. When a tab completes a local transition
    and stores the new state, and the host reads that text back as the same
    value, mounting the component on that storage area ends in that
    state. *)
Theorem reload_restores_state
    (tab : World) (action : AppAction) (st : jsval) (ok_set ok_set' : bool) :
  appReducer (state tab) action = Normal st →
  JSON_stringify st ≠ "" →
  JSON_parse (JSON_stringify st) = Normal st →
  ∃ tab' reloaded,
    dispatch JSON_stringify action true tab = Normal tab'
    ∧ mount JSON_parse JSON_stringify (localStorage tab') true ok_set ok_set'
      = Normal reloaded
    ∧ state reloaded = st.
Proof.
  intros Hstep Htext Hparse.
  destruct (JSON_stringify st) as [|c text] eqn:Hst; [done|].
  exists (save_effect JSON_stringify true (set_state st tab)).
  eexists. split; [unfold dispatch; by rewrite Hstep|].
  rewrite localStorage_save_effect. cbn. rewrite Hst.
  unfold mount, load_effect. cbn. rewrite lookup_insert_eq. cbn.
  rewrite Hparse. cbn. split; [done|]. by rewrite state_save_effect.
Qed.

End Tabs.

Lemma storage_event_for_other_key_is_ignored_witness :
  key event_other_key ≠ Some STORAGE_KEY
  ∧ snd (handleStorageChange sample_parse event_other_key fresh_world) = None
  ∧ ∃ w', storage_event sample_parse sample_stringify event_other_key true
                        fresh_world = Normal w'
          ∧ state w' = state fresh_world
          ∧ trace w' = trace fresh_world.
Proof.
  assert (key event_other_key ≠ Some STORAGE_KEY) as Hkey by done.
  split; [exact Hkey|].
  exact (storage_event_for_other_key_is_ignored sample_parse sample_stringify
           fresh_world event_other_key true Hkey).
Defined.

Lemma other_items_are_never_written_witness :
  "theme" ≠ STORAGE_KEY
  ∧ (∀ items ok_get ok_set ok_set' w,
       mount sample_parse sample_stringify items ok_get ok_set ok_set' = Normal w →
       localStorage w !! "theme" = items !! "theme")
  ∧ (∀ action ok w w',
       dispatch sample_stringify action ok w = Normal w' →
       localStorage w' !! "theme" = localStorage w !! "theme")
  ∧ (∀ event ok w w',
       storage_event sample_parse sample_stringify event ok w = Normal w' →
       localStorage w' !! "theme" = changed event (localStorage w) !! "theme").
Proof.
  assert ("theme" ≠ STORAGE_KEY) as Hk by done.
  split; [exact Hk|].
  exact (other_items_are_never_written sample_parse sample_stringify "theme" Hk).
Defined.


Lemma tabs_converge_witness :
  appReducer (state before_drive_world) drive = Normal (of_AppState drive_state)
  ∧ drive_stringify (of_AppState drive_state) ≠ ""
  ∧ sample_parse (drive_stringify (of_AppState drive_state))
    = Normal (of_AppState drive_state)
  ∧ ∃ tab' other',
      dispatch drive_stringify drive true before_drive_world = Normal tab'
      ∧ storage_event sample_parse drive_stringify
          {| key := Some STORAGE_KEY; newValue := localStorage tab' !! STORAGE_KEY |}
          true fresh_world = Normal other'
      ∧ state other' = state tab'
      ∧ localStorage other' !! STORAGE_KEY = localStorage tab' !! STORAGE_KEY.
Proof.
  assert (drive_stringify (of_AppState drive_state) ≠ "") as Htext by done.
  split; [reflexivity|]. split; [exact Htext|]. split; [reflexivity|].
  exact (tabs_converge sample_parse drive_stringify before_drive_world fresh_world
           drive (of_AppState drive_state) true eq_refl Htext eq_refl).
Defined.

Lemma reload_restores_state_witness :
  appReducer (state before_drive_world) drive = Normal (of_AppState drive_state)
  ∧ drive_stringify (of_AppState drive_state) ≠ ""
  ∧ sample_parse (drive_stringify (of_AppState drive_state))
    = Normal (of_AppState drive_state)
  ∧ ∃ tab' reloaded,
      dispatch drive_stringify drive true before_drive_world = Normal tab'
      ∧ mount sample_parse drive_stringify (localStorage tab') true true true
        = Normal reloaded
      ∧ state reloaded = of_AppState drive_state.
Proof.
  assert (drive_stringify (of_AppState drive_state) ≠ "") as Htext by done.
  split; [reflexivity|]. split; [exact Htext|]. split; [reflexivity|].
  exact (reload_restores_state sample_parse drive_stringify before_drive_world
           drive (of_AppState drive_state) true true eq_refl Htext eq_refl).
Defined.

(** ** The admin page *)

Section AdminPageProperties.

Variable parseFloat : string → float.
Variable Number_toString : float → string.

Lemma falsy_false (s : string) : falsy s = false ↔ s ≠ "".
Proof. unfold falsy. by rewrite bool_decide_eq_false. Qed.

Lemma handleFormSubmit_cases (uuid : string) (p : AdminPage) :
  let f := formState p in
  (handleFormSubmit parseFloat uuid p = (p, [Alerted invalid_form_message])
   ∧ (is_nan (parseFloat (Form.lat f)) = true ∨ is_nan (parseFloat (Form.lng f)) = true
      ∨ Form.address f = "" ∨ Form.label f = ""))
  ∨ (∃ l, handleFormSubmit parseFloat uuid p
          = (handleCancel p,
             [Dispatched (match editingLocation p with
                          | Some _ => EDIT_LOCATION l
                          | None => ADD_LOCATION l
                          end)])
          ∧ id l = match editingLocation p with Some e => id e | None => uuid end
          ∧ lat l = parseFloat (Form.lat f) ∧ lng l = parseFloat (Form.lng f)
          ∧ address l = Form.address f ∧ schedule l = Form.schedule f
          ∧ label l = Form.label f
          ∧ is_nan (lat l) = false ∧ is_nan (lng l) = false
          ∧ address l ≠ "" ∧ label l ≠ "").
Proof.
  intros f. unfold handleFormSubmit. fold f.
  destruct (is_nan (parseFloat (Form.lat f))) eqn:Hlat; cbn; [left; by eauto|].
  destruct (is_nan (parseFloat (Form.lng f))) eqn:Hlng; cbn; [left; by eauto|].
  destruct (falsy (Form.address f)) eqn:Haddress; cbn.
  { left. split; [done|]. apply bool_decide_eq_true in Haddress. by eauto. }
  destruct (falsy (Form.label f)) eqn:Hlabel; cbn.
  { left. split; [done|]. apply bool_decide_eq_true in Hlabel. by eauto 6. }
  apply falsy_false in Haddress, Hlabel.
  right. destruct (editingLocation p) as [e|]; eexists; (split; [done|]); cbn;
    by repeat split.
Qed.

(** A form that is not valid is not submitted: when a coordinate does not
    parse to a number, or the address or the label is empty, nothing is
    dispatched, the alert is raised, and the page with what the user typed
    is kept as it is. *)
Theorem invalid_form_is_kept (uuid : string) (p : AdminPage) :
  is_nan (parseFloat (Form.lat (formState p))) = true
  ∨ is_nan (parseFloat (Form.lng (formState p))) = true
  ∨ Form.address (formState p) = ""
  ∨ Form.label (formState p) = "" →
  handleFormSubmit parseFloat uuid p = (p, [Alerted invalid_form_message]).
Proof.
  intros Hinvalid.
  destruct (handleFormSubmit_cases uuid p)
    as [[? _]|(l & _ & _ & Hlat & Hlng & Ha & _ & Hl & Hnlat & Hnlng & Hna & Hnl)];
    [done|].
  destruct Hinvalid as [Hbad|[Hbad|[Hbad|Hbad]]]; congruence.
Qed.

(** Whatever the form holds, a location that the form dispatches has an
    address and a label that are not empty and coordinates that are
    numbers; it carries the id of the location being edited, or the fresh
    identifier when none is; and it is the only thing the submission
    emits. *)
Theorem form_dispatches_valid_locations
    (uuid : string) (p : AdminPage) (action : AppAction) :
  Dispatched action ∈ snd (handleFormSubmit parseFloat uuid p) →
  ∃ l, ((editingLocation p = None ∧ action = ADD_LOCATION l ∧ id l = uuid)
        ∨ (∃ e, editingLocation p = Some e ∧ action = EDIT_LOCATION l ∧ id l = id e))
       ∧ address l ≠ "" ∧ label l ≠ ""
       ∧ is_nan (lat l) = false ∧ is_nan (lng l) = false
       ∧ snd (handleFormSubmit parseFloat uuid p) = [Dispatched action].
Proof.
  destruct (handleFormSubmit_cases uuid p)
    as [[-> _]|(l & -> & Hid & _ & _ & _ & _ & _ & ? & ? & ? & ?)]; cbn.
  { by intros [=]%list_elem_of_singleton. }
  intros [= ->]%list_elem_of_singleton. exists l.
  destruct (editingLocation p) as [e|]; repeat split; eauto 6.
Qed.

Lemma replace_id_present (loc : Location) (locs : list Location) :
  NoDup (id <$> locs) → loc ∈ locs → replace_id loc <$> locs = locs.
Proof.
  intros Hnodup [i Hi]%list_elem_of_lookup_1.
  rewrite (replace_id_unique loc locs i loc) by done. by apply list_insert_id.
Qed.

(** The admin page keeps the ids of the state pairwise distinct: whatever
    event it handles, what it dispatches is reduced without an exception to
    a state with pairwise distinct ids, as long as the identifier the host
    hands to a submission that adds a location is not an id of the state. *)
Theorem admin_page_keeps_ids_unique (event : AdminEvent) (p : AdminPage) (s : AppState) :
  NoDup (ids s) →
  (∀ uuid, event = submit_form uuid → editingLocation p = None → uuid ∉ ids s) →
  ∃ s', reduce_emitted (snd (AdminPage_handle parseFloat Number_toString event p))
                       (of_AppState s)
        = Normal (of_AppState s')
        ∧ NoDup (ids s').
Proof.
  intros Hs Hfresh.
  destruct event; cbn [AdminPage_handle snd reduce_emitted]; try by exists s.
  - destruct (handleFormSubmit_cases uuid p)
      as [[-> _]|(l & -> & Hid & _)]; cbn [snd reduce_emitted]; [by exists s|].
    destruct (editingLocation p) as [e|] eqn:He.
    + rewrite reduce_EDIT_LOCATION. eexists. split; [done|].
      unfold ids in *. cbn. by rewrite ids_replace_id.
    + rewrite reduce_ADD_LOCATION. eexists. split; [done|].
      unfold ids in *. cbn. rewrite fmap_app. apply NoDup_app.
      split; [done|]. split; [|apply NoDup_singleton].
      intros i Hi ->%list_elem_of_singleton. rewrite Hid in Hi.
      by apply (Hfresh uuid).
  - unfold handleConfirmDelete. destruct (falsy _); cbn [snd reduce_emitted];
      [by exists s|].
    rewrite reduce_DELETE_LOCATION. eexists. split; [done|].
    unfold ids in *. cbn. by apply ids_filter_NoDup.
  - unfold handleSaveAnnouncements. cbn [snd reduce_emitted].
    rewrite reduce_SET_ANNOUNCEMENTS. eexists. by split.
  - unfold handleSaveContactInfo. cbn [snd reduce_emitted].
    rewrite reduce_SET_CONTACT_INFO. eexists. by split.
Qed.

(** Opening a location for editing and submitting the form untouched leaves
    the state as it is, when the ids are pairwise distinct, the location has
    an address and a label, and the host reads the coordinates back from
    the texts it printed for them. *)
Theorem untouched_edit_changes_nothing
    (s : AppState) (loc : Location) (p : AdminPage) (uuid : string) :
  loc ∈ locations s →
  NoDup (ids s) →
  address loc ≠ "" →
  label loc ≠ "" →
  parseFloat (Number_toString (lat loc)) = lat loc →
  parseFloat (Number_toString (lng loc)) = lng loc →
  is_nan (lat loc) = false →
  is_nan (lng loc) = false →
  reduce_emitted (snd (handleFormSubmit parseFloat uuid
                         (handleStartEdit Number_toString loc p)))
                 (of_AppState s)
  = Normal (of_AppState s).
Proof.
  intros Hin Hnodup Haddress Hlabel Hlat Hlng Hnlat Hnlng.
  destruct (handleFormSubmit_cases uuid (handleStartEdit Number_toString loc p))
    as [[_ Hbad]|(l & -> & Hl)].
  { cbn in Hbad. rewrite Hlat, Hlng in Hbad.
    destruct Hbad as [Hbad|[Hbad|[Hbad|Hbad]]]; congruence. }
  cbn in Hl. rewrite Hlat, Hlng in Hl.
  assert (l = loc) as ->.
  { destruct l, loc. cbn in Hl. destruct Hl as (-> & -> & -> & -> & -> & -> & _). done. }
  cbn [handleStartEdit editingLocation setIsFormOpen setFormState setEditingLocation
       snd reduce_emitted].
  rewrite reduce_EDIT_LOCATION, bind_Normal. cbn [reduce_emitted].
  unfold ids in Hnodup. rewrite replace_id_present by done.
  by rewrite with_locations_same.
Qed.

(** An edit of a location that is no longer in the state (another tab
    deleted it) is lost without a word: the form is valid, it closes, no
    alert is raised, and the state is what it was. *)
Theorem edit_of_missing_location_is_lost
    (s : AppState) (e : Location) (p : AdminPage) (uuid : string) :
  editingLocation p = Some e →
  id e ∉ ids s →
  is_nan (parseFloat (Form.lat (formState p))) = false →
  is_nan (parseFloat (Form.lng (formState p))) = false →
  Form.address (formState p) ≠ "" →
  Form.label (formState p) ≠ "" →
  reduce_emitted (snd (handleFormSubmit parseFloat uuid p)) (of_AppState s)
  = Normal (of_AppState s)
  ∧ (∀ message, Alerted message ∉ snd (handleFormSubmit parseFloat uuid p))
  ∧ isFormOpen (fst (handleFormSubmit parseFloat uuid p)) = false
  ∧ editingLocation (fst (handleFormSubmit parseFloat uuid p)) = None.
Proof.
  intros He Hmissing Hlat Hlng Haddress Hlabel.
  destruct (handleFormSubmit_cases uuid p)
    as [[_ [Hbad|[Hbad|[Hbad|Hbad]]]]|(l & -> & Hid & _)]; try congruence.
  rewrite He in *. cbn [snd fst reduce_emitted].
  rewrite reduce_EDIT_LOCATION, bind_Normal. cbn [reduce_emitted].
  unfold ids in Hmissing. rewrite replace_id_absent by (by rewrite Hid).
  rewrite with_locations_same.
  repeat split. by intros message [=]%list_elem_of_singleton.
Qed.

(** Deleting through the confirmation dialog. For an id that is not the
    empty string, confirming dispatches the deletion of exactly that id:
    afterwards no location of the state has it, the dialog is closed, the
    form is not left open on the deleted location, and a form that is open
    on anything else is untouched. For the empty string nothing is
    dispatched: a location whose id is empty cannot be deleted here. *)
Theorem confirmed_delete_removes_the_location
    (s : AppState) (p : AdminPage) (i : string) :
  (i ≠ "" →
   snd (handleConfirmDelete (handleDeleteClick i p)) = [Dispatched (DELETE_LOCATION i)]
   ∧ (∃ s', reduce_emitted (snd (handleConfirmDelete (handleDeleteClick i p)))
                           (of_AppState s) = Normal (of_AppState s')
            ∧ (i ∉ ids s')
            ∧ locations s' = filter (λ l, id l ≠ i) (locations s))
   ∧ confirmModalState (fst (handleConfirmDelete (handleDeleteClick i p)))
     = {| isOpen := false; locationId := "" |}
   ∧ (∀ e, editingLocation (fst (handleConfirmDelete (handleDeleteClick i p))) = Some e →
           id e ≠ i)
   ∧ ((∀ e, editingLocation p = Some e → id e ≠ i) →
      isFormOpen (fst (handleConfirmDelete (handleDeleteClick i p))) = isFormOpen p
      ∧ editingLocation (fst (handleConfirmDelete (handleDeleteClick i p)))
        = editingLocation p
      ∧ formState (fst (handleConfirmDelete (handleDeleteClick i p))) = formState p))
  ∧ (i = "" → snd (handleConfirmDelete (handleDeleteClick i p)) = []).
Proof.
  split.
  - intros Hi. unfold handleConfirmDelete, handleDeleteClick. cbn -[appReducer of_AppState].
    rewrite (proj2 (falsy_false _) Hi). cbn -[appReducer of_AppState].
    split; [done|]. split.
    { rewrite reduce_DELETE_LOCATION. eexists. split; [done|]. cbn.
      split; [apply ids_filter_absent|done]. }
    destruct (editingLocation p) as [e|] eqn:He; cbn.
    + case_bool_decide as Hid; cbn; rewrite ?He.
      * split; [done|]. split; [done|]. intros Hother. by destruct (Hother e).
      * split; [done|]. split; [by intros e' [= <-]|done].
    + rewrite He. by repeat split.
  - intros ->. done.
Qed.

(** Two invariants of the page, from its first render through all its
    events: a location is being edited only while the form is open, and
    the confirmation dialog remembers an id only while it is open. *)
Theorem admin_page_invariants (s : AppState) (p : AdminPage) :
  AdminPage_reachable parseFloat Number_toString s p →
  (is_Some (editingLocation p) → isFormOpen p = true)
  ∧ (isOpen (confirmModalState p) = false → locationId (confirmModalState p) = "").
Proof.
  induction 1 as [|event p _ [IHform IHmodal]]; [split; [by intros [? [=]]|done]|].
  destruct event; cbn [AdminPage_handle fst]; try (split; [exact IHform|exact IHmodal]);
    try (split; [exact IHform|done]); try (split; [by intros [? [=]]|exact IHmodal]);
    try (split; [done|exact IHmodal]).
  - unfold handleClick. destruct (_ && _); by split.
  - destruct (handleFormSubmit_cases uuid p) as [[-> _]|(l & -> & _)]; cbn;
      [by split|]. split; [by intros [? [=]]|exact IHmodal].
  - unfold handleConfirmDelete. destruct (falsy _); cbn; [by split|].
    split; [|done]. destruct (editingLocation p) as [e|] eqn:He; cbn; [|by rewrite He].
    case_bool_decide; cbn; [by intros [? [=]]|]. by rewrite He.
Qed.

End AdminPageProperties.

Lemma invalid_form_is_kept_witness :
  (is_nan (sample_parseFloat (Form.lat (formState (AdminPage_mount initialAppState)))) = true
   ∨ is_nan (sample_parseFloat (Form.lng (formState (AdminPage_mount initialAppState)))) = true
   ∨ Form.address (formState (AdminPage_mount initialAppState)) = ""
   ∨ Form.label (formState (AdminPage_mount initialAppState)) = "")
  ∧ handleFormSubmit sample_parseFloat "u1" (AdminPage_mount initialAppState)
    = (AdminPage_mount initialAppState, [Alerted invalid_form_message]).
Proof.
  assert (is_nan (sample_parseFloat (Form.lat (formState (AdminPage_mount initialAppState))))
          = true
          ∨ is_nan (sample_parseFloat (Form.lng (formState (AdminPage_mount initialAppState))))
            = true
          ∨ Form.address (formState (AdminPage_mount initialAppState)) = ""
          ∨ Form.label (formState (AdminPage_mount initialAppState)) = "") as Hinvalid.
  { left. reflexivity. }
  split; [exact Hinvalid|].
  exact (invalid_form_is_kept sample_parseFloat "u1" (AdminPage_mount initialAppState)
           Hinvalid).
Defined.

Lemma form_dispatches_valid_locations_witness :
  Dispatched (ADD_LOCATION new_city_hall)
    ∈ snd (handleFormSubmit sample_parseFloat "u1" adding_city_hall)
  ∧ ∃ l, ((editingLocation adding_city_hall = None
           ∧ ADD_LOCATION new_city_hall = ADD_LOCATION l ∧ id l = "u1")
          ∨ (∃ e, editingLocation adding_city_hall = Some e
                  ∧ ADD_LOCATION new_city_hall = EDIT_LOCATION l ∧ id l = id e))
         ∧ address l ≠ "" ∧ label l ≠ ""
         ∧ is_nan (lat l) = false ∧ is_nan (lng l) = false
         ∧ snd (handleFormSubmit sample_parseFloat "u1" adding_city_hall)
           = [Dispatched (ADD_LOCATION new_city_hall)].
Proof.
  assert (Dispatched (ADD_LOCATION new_city_hall)
            ∈ snd (handleFormSubmit sample_parseFloat "u1" adding_city_hall)) as Hin.
  { apply list_elem_of_singleton. reflexivity. }
  split; [exact Hin|].
  exact (form_dispatches_valid_locations sample_parseFloat "u1" adding_city_hall
           (ADD_LOCATION new_city_hall) Hin).
Defined.

Lemma admin_page_keeps_ids_unique_witness :
  NoDup (ids one_location)
  ∧ (∀ uuid, submit_form "u1" = submit_form uuid →
             editingLocation adding_city_hall = None → uuid ∉ ids one_location)
  ∧ ∃ s', reduce_emitted
            (snd (AdminPage_handle sample_parseFloat sample_toString
                    (submit_form "u1") adding_city_hall))
            (of_AppState one_location)
          = Normal (of_AppState s')
          ∧ NoDup (ids s').
Proof.
  assert (NoDup (ids one_location)) as Hs by apply NoDup_singleton.
  assert (∀ uuid, submit_form "u1" = submit_form uuid →
                  editingLocation adding_city_hall = None → uuid ∉ ids one_location)
    as Hfresh.
  { intros uuid [= <-] _. cbn. by intros [=]%list_elem_of_singleton. }
  split; [exact Hs|]. split; [exact Hfresh|].
  exact (admin_page_keeps_ids_unique sample_parseFloat sample_toString
           (submit_form "u1") adding_city_hall one_location Hs Hfresh).
Defined.

Lemma untouched_edit_changes_nothing_witness :
  city_hall ∈ locations one_location
  ∧ NoDup (ids one_location)
  ∧ address city_hall ≠ ""
  ∧ label city_hall ≠ ""
  ∧ sample_parseFloat (sample_toString (lat city_hall)) = lat city_hall
  ∧ sample_parseFloat (sample_toString (lng city_hall)) = lng city_hall
  ∧ is_nan (lat city_hall) = false
  ∧ is_nan (lng city_hall) = false
  ∧ reduce_emitted (snd (handleFormSubmit sample_parseFloat "u1"
                           (handleStartEdit sample_toString city_hall
                              (AdminPage_mount one_location))))
                   (of_AppState one_location)
    = Normal (of_AppState one_location).
Proof.
  assert (city_hall ∈ locations one_location) as Hin by apply list_elem_of_here.
  assert (NoDup (ids one_location)) as Hs by apply NoDup_singleton.
  assert (address city_hall ≠ "") as Haddress by done.
  assert (label city_hall ≠ "") as Hlabel by done.
  repeat (split; [done|]).
  exact (untouched_edit_changes_nothing sample_parseFloat sample_toString one_location
           city_hall (AdminPage_mount one_location) "u1"
           Hin Hs Haddress Hlabel eq_refl eq_refl eq_refl eq_refl).
Defined.

Lemma edit_of_missing_location_is_lost_witness :
  editingLocation editing_city_hall = Some city_hall
  ∧ (id city_hall ∉ ids initialAppState)
  ∧ is_nan (sample_parseFloat (Form.lat (formState editing_city_hall))) = false
  ∧ is_nan (sample_parseFloat (Form.lng (formState editing_city_hall))) = false
  ∧ Form.address (formState editing_city_hall) ≠ ""
  ∧ Form.label (formState editing_city_hall) ≠ ""
  ∧ reduce_emitted (snd (handleFormSubmit sample_parseFloat "u1" editing_city_hall))
                   (of_AppState initialAppState)
    = Normal (of_AppState initialAppState)
  ∧ (∀ message,
       Alerted message ∉ snd (handleFormSubmit sample_parseFloat "u1" editing_city_hall))
  ∧ isFormOpen (fst (handleFormSubmit sample_parseFloat "u1" editing_city_hall)) = false
  ∧ editingLocation (fst (handleFormSubmit sample_parseFloat "u1" editing_city_hall))
    = None.
Proof.
  assert (id city_hall ∉ ids initialAppState) as Hmissing by apply not_elem_of_nil.
  assert (Form.address (formState editing_city_hall) ≠ "") as Haddress by done.
  assert (Form.label (formState editing_city_hall) ≠ "") as Hlabel by done.
  split; [reflexivity|]. split; [exact Hmissing|].
  split; [reflexivity|]. split; [reflexivity|].
  split; [exact Haddress|]. split; [exact Hlabel|].
  exact (edit_of_missing_location_is_lost sample_parseFloat initialAppState city_hall
           editing_city_hall "u1" eq_refl Hmissing eq_refl eq_refl Haddress Hlabel).
Defined.

Lemma admin_page_invariants_witness :
  AdminPage_reachable sample_parseFloat sample_toString one_location
    (fst (AdminPage_handle sample_parseFloat sample_toString (click_edit city_hall)
            (AdminPage_mount one_location)))
  ∧ (is_Some (editingLocation
                (fst (AdminPage_handle sample_parseFloat sample_toString
                        (click_edit city_hall) (AdminPage_mount one_location)))) →
     isFormOpen (fst (AdminPage_handle sample_parseFloat sample_toString
                        (click_edit city_hall) (AdminPage_mount one_location))) = true)
  ∧ (isOpen (confirmModalState
               (fst (AdminPage_handle sample_parseFloat sample_toString
                       (click_edit city_hall) (AdminPage_mount one_location)))) = false →
     locationId (confirmModalState
                   (fst (AdminPage_handle sample_parseFloat sample_toString
                           (click_edit city_hall) (AdminPage_mount one_location)))) = "").
Proof.
  assert (AdminPage_reachable sample_parseFloat sample_toString one_location
            (fst (AdminPage_handle sample_parseFloat sample_toString (click_edit city_hall)
                    (AdminPage_mount one_location)))) as Hreach.
  { apply AdminPage_handled, AdminPage_mounted. }
  split; [exact Hreach|].
  exact (admin_page_invariants sample_parseFloat sample_toString one_location _ Hreach).
Defined.

(** ** Navigation and login *)

Lemma route_nonempty (hash : string) : route hash ≠ "".
Proof.
  unfold route. destruct hash as [|c rest]; [done|]. cbn.
  unfold falsy. by case_bool_decide.
Qed.

Lemma renderPage_cases (state : jsval) (t : Tab) :
  (page t = "/admin" ∧ isAuthenticated t = false
   ∧ renderPage state t = Normal (nothing, set_location_hash "/login" t))
  ∨ (page t = "/admin" ∧ isAuthenticated t = true
     ∧ renderPage state t = Normal (render_AdminPage state, t))
  ∨ (page t ≠ "/admin"
     ∧ ((∃ r, renderPage state t = Normal (r, t) ∧ ∀ st, r ≠ render_AdminPage st)
        ∨ ∃ e, renderPage state t = Throw e)).
Proof.
  unfold renderPage.
  assert ((if falsy (page t) then "/" else page t) = "/admin" ↔ page t = "/admin")
    as Hadmin.
  { unfold falsy. case_bool_decide as Hp; [|done]. rewrite Hp. split; by intros [=]. }
  destruct (decide (page t = "/admin")) as [Hp|Hp].
  - rewrite (proj2 Hadmin Hp).
    destruct (isAuthenticated t) eqn:Hauth; [right|]; left; by repeat split.
  - right. right. split; [done|].
    rewrite (bool_decide_eq_false_2 _ (λ H, Hp (proj1 Hadmin H))). cbn.
    repeat case_bool_decide;
      try (destruct (get state _) as [v|e]; cbn; [left|right]); try left;
      eauto.
Qed.

Lemma admin_page_shown (state : jsval) (t : Tab) (st : jsval) (t' : Tab) :
  renderPage state t = Normal (render_AdminPage st, t') →
  page t = "/admin" ∧ isAuthenticated t = true.
Proof.
  intros Hrender.
  destruct (renderPage_cases state t)
    as [(Hp & Hauth & Hr)|[(Hp & Hauth & Hr)|(Hp & [(r' & Hr & Hnot)|[e Hr]])]];
    rewrite Hr in Hrender; [done|done| |done].
  injection Hrender as -> _. by destruct (Hnot st).
Qed.

(** The admin page is rendered only for an authenticated tab on the route
    [/admin]: on that route a tab that is not authenticated is shown
    nothing and sent to the login route, and on any other route some other
    page is rendered, or the render throws. *)
Theorem admin_page_needs_authentication
    (state : jsval) (t : Tab) (r : rendered) (t' : Tab) :
  renderPage state t = Normal (r, t') →
  ((∃ st, r = render_AdminPage st)
   ↔ page t = "/admin" ∧ isAuthenticated t = true)
  ∧ (page t = "/admin" → isAuthenticated t = false →
     r = nothing ∧ route (location_hash t') = "/login").
Proof.
  intros Hrender.
  destruct (renderPage_cases state t)
    as [(Hp & Hauth & Hr)|[(Hp & Hauth & Hr)|(Hp & [(r' & Hr & Hnot)|[e Hr]])]];
    rewrite Hr in Hrender; try done; injection Hrender as <- <-.
  - split; [|intros _ _; split; reflexivity].
    split; [intros [st Hst]; discriminate Hst|]. intros [_ ?]. congruence.
  - split; [split; eauto|]. intros _ ?. congruence.
  - split; [|done]. split; [|by intros [? _]]. intros [st ->]. by destruct (Hnot st).
Qed.

Lemma admin_page_needs_authentication_witness :
  renderPage (of_AppState initialAppState)
             (Tab_handle (hashchange (assigned_hash "/admin")) visitor)
  = Normal (nothing,
            set_location_hash "/login"
              (Tab_handle (hashchange (assigned_hash "/admin")) visitor))
  ∧ ((∃ st, nothing = render_AdminPage st)
     ↔ page (Tab_handle (hashchange (assigned_hash "/admin")) visitor) = "/admin"
       ∧ isAuthenticated (Tab_handle (hashchange (assigned_hash "/admin")) visitor) = true)
  ∧ (page (Tab_handle (hashchange (assigned_hash "/admin")) visitor) = "/admin" →
     isAuthenticated (Tab_handle (hashchange (assigned_hash "/admin")) visitor) = false →
     nothing = nothing
     ∧ route (location_hash
                (set_location_hash "/login"
                   (Tab_handle (hashchange (assigned_hash "/admin")) visitor)))
       = "/login").
Proof.
  split; [reflexivity|].
  exact (admin_page_needs_authentication (of_AppState initialAppState)
           (Tab_handle (hashchange (assigned_hash "/admin")) visitor) nothing _ eq_refl).
Defined.

Lemma Tab_handle_keeps_session (event : TabEvent) (t : Tab) :
  (isAuthenticated t = true ↔ sessionStorage t !! "isAuthenticated" = Some "true") →
  (isAuthenticated (Tab_handle event t) = true
   ↔ sessionStorage (Tab_handle event t) !! "isAuthenticated" = Some "true").
Proof.
  intros Ht. destruct event as [hash|path| | | |l|state]; cbn; try done.
  - rewrite lookup_delete_eq. split; by intros [=].
  - unfold handleSubmit. case_bool_decide; cbn; [|done]. by rewrite lookup_insert_eq.
  - destruct (renderPage_cases state t)
      as [(_ & _ & ->)|[(_ & _ & ->)|(_ & [(r & -> & _)|[e ->]])]]; done.
Qed.

(** From the first render on, through every event, the tab is
    authenticated exactly when the session storage holds the flag, so that
    mounting again in the same session (a reload) is authenticated exactly
    when the tab was; and the page is never the empty string. *)
Theorem session_flag_follows_authentication
    (hash : string) (session : gmap string string) (t : Tab) :
  Tab_reachable hash session t →
  (isAuthenticated t = true ↔ sessionStorage t !! "isAuthenticated" = Some "true")
  ∧ (∀ hash', isAuthenticated (App_mount hash' (sessionStorage t)) = isAuthenticated t)
  ∧ page t ≠ "".
Proof.
  intros Hreach.
  assert ((isAuthenticated t = true ↔ sessionStorage t !! "isAuthenticated" = Some "true")
          ∧ page t ≠ "") as [Hflag Hpage].
  { induction Hreach as [|event t _ [IHflag IHpage]].
    - split; [cbn; by rewrite bool_decide_eq_true|apply route_nonempty].
    - split; [by apply Tab_handle_keeps_session|].
      destruct event as [hash'|path| | | |l|state]; cbn; try done.
      + apply route_nonempty.
      + unfold handleSubmit. by case_bool_decide.
      + destruct (renderPage_cases state t)
          as [(_ & _ & ->)|[(_ & _ & ->)|(_ & [(r & -> & _)|[e ->]])]]; done. }
  repeat split; try done; try apply Hflag.
  intros hash'. cbn. destruct (isAuthenticated t) eqn:Hauth.
  - apply bool_decide_eq_true. by apply Hflag.
  - apply bool_decide_eq_false. intros Hset%Hflag. congruence.
Qed.

Lemma session_flag_follows_authentication_witness :
  Tab_reachable "" ∅ (Tab_handle (submit_login right_password) visitor)
  ∧ (isAuthenticated (Tab_handle (submit_login right_password) visitor) = true
     ↔ sessionStorage (Tab_handle (submit_login right_password) visitor)
         !! "isAuthenticated" = Some "true")
  ∧ (∀ hash', isAuthenticated
                (App_mount hash'
                   (sessionStorage (Tab_handle (submit_login right_password) visitor)))
              = isAuthenticated (Tab_handle (submit_login right_password) visitor))
  ∧ page (Tab_handle (submit_login right_password) visitor) ≠ "".
Proof.
  assert (Tab_reachable "" ∅ (Tab_handle (submit_login right_password) visitor))
    as Hreach.
  { apply Tab_handled, Tab_mounted. }
  split; [exact Hreach|].
  exact (session_flag_follows_authentication "" ∅ _ Hreach).
Defined.

(** Nobody is authenticated without the password: from a tab that is not
    authenticated, through any events among which no login form is
    submitted with the password, the tab stays unauthenticated and no
    render shows the admin page. *)
Theorem no_authentication_without_password (events : list TabEvent) (t : Tab) :
  isAuthenticated t = false →
  Forall (λ event, ∀ l, event = submit_login l → password l ≠ "Netlify#123") events →
  isAuthenticated (foldl (λ t event, Tab_handle event t) t events) = false
  ∧ ∀ state r t',
      renderPage state (foldl (λ t event, Tab_handle event t) t events) = Normal (r, t') →
      ∀ st, r ≠ render_AdminPage st.
Proof.
  intros Ht Hevents.
  assert (isAuthenticated (foldl (λ t event, Tab_handle event t) t events) = false)
    as Hfinal.
  { revert t Ht. induction Hevents as [|event events Hevent _ IH]; intros t Ht; [done|].
    cbn. apply IH.
    destruct event as [hash|path| | | |l|state]; cbn; try done.
    - unfold handleSubmit. rewrite bool_decide_eq_false_2 by by apply Hevent. done.
    - destruct (renderPage_cases state t)
        as [(_ & _ & ->)|[(_ & _ & ->)|(_ & [(r & -> & _)|[e ->]])]]; done. }
  split; [exact Hfinal|].
  intros state r t' Hrender st ->.
  destruct (admin_page_shown _ _ _ _ Hrender) as [_ Hauth]. congruence.
Qed.

Lemma no_authentication_without_password_witness :
  isAuthenticated visitor = false
  ∧ Forall (λ event, ∀ l, event = submit_login l → password l ≠ "Netlify#123")
           visit_without_password
  ∧ isAuthenticated (foldl (λ t event, Tab_handle event t) visitor visit_without_password)
    = false
  ∧ ∀ state r t',
      renderPage state (foldl (λ t event, Tab_handle event t) visitor visit_without_password)
      = Normal (r, t') →
      ∀ st, r ≠ render_AdminPage st.
Proof.
  assert (Forall (λ event, ∀ l, event = submit_login l → password l ≠ "Netlify#123")
                 visit_without_password) as Hevents.
  { repeat apply Forall_cons_2; try apply Forall_nil_2; try by intros l [=].
    by intros l [= <-]. }
  split; [reflexivity|]. split; [exact Hevents|].
  exact (no_authentication_without_password visit_without_password visitor
           eq_refl Hevents).
Defined.



(** ** The admin page and the host's numbers *)

Section PickedCoordinates.

Variable parseFloat : string → float.
Variable Number_toString : float → string.

(** Coordinates picked on the map reach the reducer as they were picked.
    With the form open for a new location that has an address and a label,
    a click on the map (or a drag of the marker) followed by a submission
    dispatches a new location at exactly the picked coordinates, when these
    are numbers that the host reads back from the texts it prints. *)
Theorem picked_coordinates_are_submitted
    (p : AdminPage) (lat' lng' : float) (uuid : string) :
  isFormOpen p = true →
  editingLocation p = None →
  Form.address (formState p) ≠ "" →
  Form.label (formState p) ≠ "" →
  parseFloat (Number_toString lat') = lat' →
  parseFloat (Number_toString lng') = lng' →
  is_nan lat' = false →
  is_nan lng' = false →
  ∃ l, snd (handleFormSubmit parseFloat uuid (handleClick Number_toString lat' lng' p))
       = [Dispatched (ADD_LOCATION l)]
       ∧ snd (handleFormSubmit parseFloat uuid (handleDragEnd Number_toString lat' lng' p))
         = [Dispatched (ADD_LOCATION l)]
       ∧ id l = uuid ∧ lat l = lat' ∧ lng l = lng'
       ∧ address l = Form.address (formState p)
       ∧ schedule l = Form.schedule (formState p)
       ∧ label l = Form.label (formState p).
Proof.
  intros Hopen Hediting Haddress Hlabel Hlat Hlng Hnlat Hnlng.
  assert (handleClick Number_toString lat' lng' p
          = handleDragEnd Number_toString lat' lng' p) as ->.
  { unfold handleClick. by rewrite Hopen, Hediting. }
  destruct (handleFormSubmit_cases parseFloat uuid
              (handleDragEnd Number_toString lat' lng' p))
    as [[_ Hbad]|(l & -> & Hl)].
  { cbn in Hbad. rewrite Hlat, Hlng in Hbad.
    destruct Hbad as [Hbad|[Hbad|[Hbad|Hbad]]]; congruence. }
  cbn in Hl. rewrite Hediting, Hlat, Hlng in Hl.
  destruct Hl as (? & ? & ? & ? & ? & ? & _).
  exists l. cbn. rewrite Hediting. by repeat split.
Qed.

(** The announcements and contact fields of the admin page are filled once,
    when the page is mounted. Through any events in which the user does not
    type into them, they keep the values of the state the page was mounted
    with, so that saving dispatches those values, whatever the state has
    become since. *)
Theorem untouched_fields_save_mounted_values
    (s : AppState) (events : list AdminEvent) :
  Forall (λ event, (∀ v, event ≠ change_announcements v)
                   ∧ (∀ v, event ≠ change_email v)
                   ∧ (∀ v, event ≠ change_phone v)
                   ∧ (∀ v, event ≠ change_office v)) events →
  let p := foldl (λ p event, fst (AdminPage_handle parseFloat Number_toString event p))
                 (AdminPage_mount s) events in
  Dispatched (SET_ANNOUNCEMENTS (announcements s)) ∈ snd (handleSaveAnnouncements p)
  ∧ Dispatched (SET_CONTACT_INFO (contactInfo s)) ∈ snd (handleSaveContactInfo p)
  ∧ ∀ current,
      ∃ s', reduce_emitted (snd (handleSaveAnnouncements p)) (of_AppState current)
            = Normal (of_AppState s')
            ∧ announcements s' = announcements s.
Proof.
  intros Hevents p.
  assert (announcementText p = announcements s ∧ contactForm p = contactInfo s)
    as [Htext Hcontact].
  { subst p.
    assert (announcementText (AdminPage_mount s) = announcements s) as Hq1 by done.
    assert (contactForm (AdminPage_mount s) = contactInfo s) as Hq2 by done.
    revert Hq1 Hq2. generalize (AdminPage_mount s).
    induction Hevents as [|event events (Ha & He & Hp & Ho) _ IH]; intros q Hq1 Hq2;
      [done|].
    cbn [foldl]. apply IH.
    - rewrite <- Hq1. destruct event; cbn [AdminPage_handle fst]; try done.
      + unfold handleClick. by destruct (_ && _).
      + destruct (handleFormSubmit_cases parseFloat uuid q) as [[-> _]|(l & -> & _)];
          done.
      + unfold handleConfirmDelete. destruct (falsy _); cbn; [done|].
        destruct (editingLocation q); [|done]. by case_bool_decide.
      + by destruct (Ha value).
    - rewrite <- Hq2. destruct event; cbn [AdminPage_handle fst]; try done.
      + unfold handleClick. by destruct (_ && _).
      + destruct (handleFormSubmit_cases parseFloat uuid q) as [[-> _]|(l & -> & _)];
          done.
      + unfold handleConfirmDelete. destruct (falsy _); cbn; [done|].
        destruct (editingLocation q); [|done]. by case_bool_decide.
      + by destruct (He value).
      + by destruct (Hp value).
      + by destruct (Ho value). }
  unfold handleSaveAnnouncements, handleSaveContactInfo. cbn [snd].
  rewrite Htext, Hcontact.
  split; [apply list_elem_of_here|]. split; [apply list_elem_of_here|].
  intros current. cbn [reduce_emitted]. rewrite reduce_SET_ANNOUNCEMENTS, bind_Normal.
  eexists. by split.
Qed.

End PickedCoordinates.

Lemma picked_coordinates_are_submitted_witness :
  isFormOpen (foldl (λ p event, fst (AdminPage_handle sample_parseFloat sample_toString
                                       event p))
                    (AdminPage_mount initialAppState) typed_city_hall) = true
  ∧ ∃ l, snd (handleFormSubmit sample_parseFloat "u1"
                (handleClick sample_toString 16.4 120.6
                   (foldl (λ p event, fst (AdminPage_handle sample_parseFloat
                                             sample_toString event p))
                          (AdminPage_mount initialAppState) typed_city_hall)))
         = [Dispatched (ADD_LOCATION l)]
         ∧ l = new_city_hall.
Proof.
  split; [reflexivity|].
  destruct (picked_coordinates_are_submitted sample_parseFloat sample_toString
              (foldl (λ p event, fst (AdminPage_handle sample_parseFloat sample_toString
                                        event p))
                     (AdminPage_mount initialAppState) typed_city_hall)
              16.4 120.6 "u1" eq_refl eq_refl
              ltac:(discriminate) ltac:(discriminate) eq_refl eq_refl eq_refl eq_refl)
    as (l & Hclick & _ & Hid & Hlat & Hlng & Haddress & Hschedule & Hlabel).
  exists l. split; [exact Hclick|].
  destruct l. cbn in *. by subst.
Defined.

Lemma untouched_fields_save_mounted_values_witness :
  Forall (λ event, (∀ v, event ≠ change_announcements v)
                   ∧ (∀ v, event ≠ change_email v)
                   ∧ (∀ v, event ≠ change_phone v)
                   ∧ (∀ v, event ≠ change_office v)) typed_city_hall
  ∧ Dispatched (SET_ANNOUNCEMENTS (announcements before_drive))
      ∈ snd (handleSaveAnnouncements
               (foldl (λ p event, fst (AdminPage_handle sample_parseFloat sample_toString
                                         event p))
                      (AdminPage_mount before_drive) typed_city_hall)).
Proof.
  assert (Forall (λ event, (∀ v, event ≠ change_announcements v)
                           ∧ (∀ v, event ≠ change_email v)
                           ∧ (∀ v, event ≠ change_phone v)
                           ∧ (∀ v, event ≠ change_office v)) typed_city_hall) as Hevents.
  { repeat apply Forall_cons_2; try apply Forall_nil_2; by repeat split. }
  split; [exact Hevents|].
  exact (proj1 (untouched_fields_save_mounted_values sample_parseFloat sample_toString
                  before_drive typed_city_hall Hevents)).
Defined.
